(** * Index analysis of tensor expressions: sympy/tensor/index_methods.py

    A shallow embedding of [_remove_repeated], [_get_indices_Mul],
    [_get_indices_Add], [get_indices] and [get_contraction_structure],
    followed by the properties the specification states about them.

    Python sets are [gset], Python dicts are [gmap]; an exception is a
    value of [PyError] carried by the result type [Res].  The dict
    [sum_index] of [_remove_repeated], whose iteration makes the tuple of
    the result, keeps its keys in the order of their insertion.  A set is
    iterated in the order of [elements], and the dict of one term in the
    order of [map_to_list] where the terms of a sum are merged: some fixed
    order, on which no property below depends. *)

From stdpp Require Import countable strings gmap fin_maps.
From Stdlib Require Import QArith Qcanon.
From stdpp Require Import list.

Set Default Proof Using "Type".

(** An index object ([Idx], or an integer symbol used as one), compared and
    hashed by name. *)
Definition Idx : Type := string.

(** ** Expression trees *)

(** The part of sympy's expression tree that the analysis looks at:
    [Indexed] leaves, atoms (numbers and symbols), [Mul], [Add], and any
    other node (a function application, a power, ...) with its class name
    and arguments. *)
#[warnings="-register-all"]
Inductive Expr : Type :=
  | Indexed (base : string) (indices : list Idx)
  | Number (n : Z)
  | Symbol (name : string)
  | Mul (args : list Expr)
  | Add (args : list Expr)
  | Other (ty : string) (args : list Expr).

Definition is_Number (e : Expr) : bool :=
  match e with Number _ => true | _ => false end.

Definition is_Atom (e : Expr) : bool :=
  match e with Number _ | Symbol _ => true | _ => false end.

Definition is_Mul (e : Expr) : bool :=
  match e with Mul _ => true | _ => false end.

Definition is_Add (e : Expr) : bool :=
  match e with Add _ => true | _ => false end.

(** Induction over expressions with the hypothesis available for every
    argument of a node. *)
Section Expr_induction.
Variable P : Expr → Prop.
Hypothesis HIndexed : ∀ base indices, P (Indexed base indices).
Hypothesis HNumber : ∀ n, P (Number n).
Hypothesis HSymbol : ∀ name, P (Symbol name).
Hypothesis HMul : ∀ args, Forall P args → P (Mul args).
Hypothesis HAdd : ∀ args, Forall P args → P (Add args).
Hypothesis HOther : ∀ ty args, Forall P args → P (Other ty args).

Fixpoint Expr_nested_ind (e : Expr) : P e :=
  let all := fix all (l : list Expr) : Forall P l :=
    match l with
    | [] => Forall_nil_2 P
    | x :: l' => Forall_cons_2 P x l' (Expr_nested_ind x) (all l')
    end in
  match e with
  | Indexed base indices => HIndexed base indices
  | Number n => HNumber n
  | Symbol name => HSymbol name
  | Mul args => HMul args (all args)
  | Add args => HAdd args (all args)
  | Other ty args => HOther ty args (all args)
  end.
End Expr_induction.

(** Expressions are hashable: they are encoded as generic trees. *)
Definition Expr_leaf : Type := (string * list Idx + Z + string)%type.

Fixpoint Expr_to_tree (e : Expr) : gen_tree Expr_leaf :=
  match e with
  | Indexed base indices => GenLeaf (inl (inl (base, indices)))
  | Number n => GenLeaf (inl (inr n))
  | Symbol name => GenLeaf (inr name)
  | Mul args => GenNode 0 (Expr_to_tree <$> args)
  | Add args => GenNode 1 (Expr_to_tree <$> args)
  | Other ty args => GenNode 2 (GenLeaf (inr ty) :: (Expr_to_tree <$> args))
  end.

Fixpoint tree_to_Expr (t : gen_tree Expr_leaf) : Expr :=
  match t with
  | GenLeaf (inl (inl (base, indices))) => Indexed base indices
  | GenLeaf (inl (inr n)) => Number n
  | GenLeaf (inr name) => Symbol name
  | GenNode 0 ts => Mul (tree_to_Expr <$> ts)
  | GenNode 1 ts => Add (tree_to_Expr <$> ts)
  | GenNode _ (GenLeaf (inr ty) :: ts) => Other ty (tree_to_Expr <$> ts)
  | GenNode _ _ => Number 0
  end.

Lemma tree_to_Expr_to_tree (e : Expr) : tree_to_Expr (Expr_to_tree e) = e.
Proof.
  assert (Hargs : ∀ args, Forall (λ x, tree_to_Expr (Expr_to_tree x) = x) args →
                         tree_to_Expr <$> (Expr_to_tree <$> args) = args).
  { intros args IH. induction IH as [|x l Hx _ IHl]; [done|].
    by rewrite !fmap_cons, Hx, IHl. }
  induction e as [| | |args IH|args IH|ty args IH] using Expr_nested_ind;
    cbn [Expr_to_tree tree_to_Expr]; try done; by rewrite Hargs.
Qed.

Global Instance Expr_eq_dec : EqDecision Expr.
Proof.
  intros x y.
  destruct (decide (Expr_to_tree x = Expr_to_tree y)) as [Heq|Hne].
  - left. by rewrite <- (tree_to_Expr_to_tree x), Heq, tree_to_Expr_to_tree.
  - right. by intros ->.
Defined.

Global Instance Expr_countable : Countable Expr :=
  inj_countable' Expr_to_tree tree_to_Expr tree_to_Expr_to_tree.

(** ** Results and exceptions *)

(** The exceptions that the module can raise.  A message built with [%]
    keeps its argument as the payload:
    - [AssertionError i]: "Index %s repeated more than twice" % i
    - [IndexConformanceException expr]: "Indices are not consistent: %s" % expr
    - [NotImplementedError ty]:
        "FIXME: No specialized handling of type %s" % type(expr)
    - [ValueError]: a sequence unpacked into the wrong number of names
    - [TypeError]: [|=] applied to operands that do not support it *)
Inductive PyError : Type :=
  | AssertionError (i : Idx)
  | IndexConformanceException (expr : Expr)
  | NotImplementedError (ty : string)
  | ValueError
  | TypeError.

Inductive Res (A : Type) : Type :=
  | OK (a : A)
  | Raise (e : PyError).
Arguments OK {A} a.
Arguments Raise {A} e.

Global Instance Res_ret : MRet Res := λ A a, OK a.
Global Instance Res_bind : MBind Res := λ A B f m,
  match m with OK a => f a | Raise e => Raise e end.

(** A [for] loop that threads its state through the body and stops at the
    first exception. *)
Definition foldlM {A B : Type} (f : B → A → Res B) : B → list A → Res B :=
  fix go (b : B) (l : list A) : Res B :=
    match l with
    | [] => OK b
    | x :: l' => b' ← f b x; go b' l'
    end.

(** ** [_remove_repeated] *)

(** The dict [sum_index]: its entries, and its keys in the order in which
    they were inserted, which is the order in which the dict is iterated. *)
Record Dict : Type := { entries : gmap Idx nat; order : list Idx }.

Definition empty_dict : Dict := {| entries := ∅; order := [] |}.

(** [d[i] = n]: a new key goes to the end, a key of the dict keeps its
    place. *)
Definition dict_set (d : Dict) (i : Idx) (n : nat) : Dict :=
  {| entries := <[i := n]> (entries d);
     order := if decide (is_Some (entries d !! i)) then order d
              else order d ++ [i] |}.

(** One iteration of the counting loop: the dict holds, for every index seen
    so far, the number of its occurrences minus one; the [assert] rejects a
    third occurrence. *)
Definition count_index (sum_index : Dict) (i : Idx) : Res Dict :=
  match entries sum_index !! i with
  | Some n =>
      let n' := n + 1 in
      if decide (n' = 1) then OK (dict_set sum_index i n')
      else Raise (AssertionError i)
  | None => OK (dict_set sum_index i 0)
  end.

(** [tuple([ i for i in sum_index if sum_index[i] ])]: the keys with a
    nonzero count, in the iteration order of the dict. *)
Definition repeated_keys (sum_index : Dict) : list Idx :=
  filter (λ i, entries sum_index !!! i ≠ 0) (order sum_index).

Definition _remove_repeated (inds : list Idx) : Res (gset Idx * list Idx) :=
  sum_index ← foldlM count_index empty_dict inds;
  let inds := filter (λ x, entries sum_index !!! x = 0) inds in
  OK (list_to_set inds, repeated_keys sum_index).

(** ** What the analysis takes from the expression tree *)

(** Modelled from the spec: [Mul.as_coeff_terms] of sympy's core, "a
    decomposition of a Product node into a scalar coefficient and non-scalar
    factors": a leading number is the coefficient and the remaining
    arguments are the factors; without one the coefficient is 1 and every
    argument is a factor. *)
Definition Mul_coeff (args : list Expr) : Expr :=
  match args with
  | c :: _ => if is_Number c then c else Number 1
  | [] => Number 1
  end.

Definition Mul_terms (args : list Expr) : list Expr :=
  match args with
  | c :: rest => if is_Number c then rest else args
  | [] => args
  end.

Definition as_coeff_terms (args : list Expr) : Expr * list Expr :=
  (Mul_coeff args, Mul_terms args).

(** Modelled from the spec: [expr.has(Indexed)] of sympy's core, the
    "containment test (does this subtree contain any Indexed Leaf)". *)
Fixpoint has_Indexed (expr : Expr) : bool :=
  match expr with
  | Indexed _ _ => true
  | Number _ | Symbol _ => false
  | Mul args | Add args | Other _ args => existsb has_Indexed args
  end.

(** ** Python built-ins used by the module *)

(** [a, b = zip( *pairs )]: [zip] of no arguments is the empty list, which
    does not unpack into two names. *)
Definition zip_star {A B : Type} (pairs : list (A * B)) : Res (list A * list B) :=
  match pairs with
  | [] => Raise ValueError
  | _ :: _ => OK (pairs.*1, pairs.*2)
  end.

(** [reduce(f, seq)] without an initial value. *)
Definition reduce {A : Type} (f : A → A → A) (seq : list A) : Res A :=
  match seq with
  | [] => Raise TypeError
  | x :: seq' => OK (foldl f x seq')
  end.

(** ** [get_indices] and its helpers *)

Abbreviation SymMap := (gmap (Idx * Idx) Z).

(** The loop body of [_get_indices_Mul] over one factor's symmetries [s]:
    [symmetry[pair] *= s[pair]] where the pair is already present,
    [symmetry[pair] = s[pair]] otherwise. *)
Definition merge_symmetry (symmetry s : SymMap) : SymMap :=
  union_with (λ a b, Some (a * b)%Z) symmetry s.

(** [get_indices] and the two helpers call each other; the helpers take the
    recursive function as their first argument, and the arguments of the
    node ([expr.args]) next to the node itself.  Without [return_dummies]
    the third component of the result of [_get_indices_Mul] is absent. *)
Definition _get_indices_Mul (get_indices : Expr → Res (gset Idx * SymMap))
    (args : list Expr) (return_dummies : bool)
    : Res (gset Idx * SymMap * option (list Idx)) :=
  let '(junk, factors) := as_coeff_terms args in
  inds ← mapM get_indices factors;
  '(inds, syms) ← zip_star inds;
  let inds := elements <$> inds in
  inds ← reduce app inds;
  '(inds, dummies) ← _remove_repeated inds;
  let symmetry := foldl merge_symmetry ∅ syms in
  if return_dummies then OK (inds, symmetry, Some dummies)
  else OK (inds, symmetry, None).

(** The values that flow through [reduce(lambda x, y: x!=y or y, syms)]:
    a dict, or [True] once two dicts have differed. *)
Inductive DictOrTrue : Type :=
  | PyDict (d : SymMap)
  | PyTrue.

(** [lambda x, y: x != y or y], where [y] is always a dict; [True] differs
    from every dict. *)
Definition differs_or_second (x : DictOrTrue) (y : DictOrTrue) : DictOrTrue :=
  match x, y with
  | PyDict dx, PyDict dy => if decide (dx ≠ dy) then PyTrue else y
  | _, _ => PyTrue
  end.

(** Python's truth value: a dict is true when it is not empty. *)
Definition truth (v : DictOrTrue) : bool :=
  match v with
  | PyDict d => bool_decide (d ≠ ∅)
  | PyTrue => true
  end.

Definition _get_indices_Add (get_indices : Expr → Res (gset Idx * SymMap))
    (expr : Expr) (args : list Expr) : Res (gset Idx * SymMap) :=
  inds ← mapM get_indices args;
  '(inds, syms) ← zip_star inds;
  let non_scalars := filter (λ x, x ≠ ∅) inds in
  match non_scalars with
  | [] => OK (∅, ∅)
  | first :: others =>
      if negb (forallb (λ x, bool_decide (x = first)) others)
      then Raise (IndexConformanceException expr)
      else
        r ← reduce differs_or_second (PyDict <$> syms);
        let symmetries := if negb (truth r) then default ∅ (head syms) else ∅ in
        OK (first, symmetries)
  end.

Fixpoint get_indices (expr : Expr) : Res (gset Idx * SymMap) :=
  match expr with
  | Indexed _ c =>
      '(inds, dummies) ← _remove_repeated c;
      OK (inds, ∅)
  | Number _ | Symbol _ => OK (∅, ∅)
  | Mul args =>
      '(inds, symmetry, _) ← _get_indices_Mul get_indices args false;
      OK (inds, symmetry)
  | Add args => _get_indices_Add get_indices expr args
  | Other ty _ =>
      if negb (has_Indexed expr) then OK (∅, ∅)
      else Raise (NotImplementedError ty)
  end.

(** The entry point also accepts [None] in place of an expression. *)
Definition get_indices_or_None (expr : option Expr) : Res (gset Idx * SymMap) :=
  match expr with
  | None => OK (∅, ∅)
  | Some expr => get_indices expr
  end.

(** ** [get_contraction_structure] *)

(** The keys of a contraction structure: [None], a nonempty tuple of dummy
    indices, or an expression. *)
Inductive Key : Type :=
  | KNone
  | KTuple (dummies : list Idx)
  | KExpr (expr : Expr).

Global Instance Key_eq_dec : EqDecision Key.
Proof. solve_decision. Defined.

Global Instance Key_countable : Countable Key :=
  inj_countable'
    (λ k, match k with
          | KNone => inl ()
          | KTuple t => inr (inl t)
          | KExpr e => inr (inr e)
          end)
    (λ s, match s with
          | inl () => KNone
          | inr (inl t) => KTuple t
          | inr (inr e) => KExpr e
          end)
    (λ k, match k with KNone | KTuple _ | KExpr _ => eq_refl end).

(** The values: a set of expressions, or a list of nested structures. *)
#[warnings="-register-all"]
Inductive Value : Type :=
  | VSet (s : gset Expr)
  | VList (l : list (gmap Key Value)).

Abbreviation Structure := (gmap Key Value).

(** [key or None]: the empty tuple is false. *)
Definition key_or_None (key : list Idx) : Key :=
  match key with
  | [] => KNone
  | _ :: _ => KTuple key
  end.

(** [old |= new]: defined on two sets only. *)
Definition ior (old new : Value) : Res Value :=
  match old, new with
  | VSet a, VSet b => OK (VSet (a ∪ b))
  | _, _ => Raise TypeError
  end.

(** The body of [for key in d] in the [Add] branch, on the item
    [(key, d[key])]. *)
Definition merge_item (result : Structure) (item : Key * Value) : Res Structure :=
  let '(key, value) := item in
  match result !! key with
  | Some old => new ← ior old value; OK (<[key := new]> result)
  | None => OK (<[key := value]> result)
  end.

Definition merge_structure (result d : Structure) : Res Structure :=
  foldlM merge_item result (map_to_list d).

(** [mapM f (filter p l)], written as one traversal of [l]. *)
Definition mapM_filter {A B : Type} (p : A → bool) (f : A → Res B)
    : list A → Res (list B) :=
  fix go (l : list A) : Res (list B) :=
    match l with
    | [] => OK []
    | x :: l' => if p x then y ← f x; ys ← go l'; OK (y :: ys) else go l'
    end.

Fixpoint get_contraction_structure (expr : Expr) : Res Structure :=
  match expr with
  | Indexed _ indices =>
      '(junk, key) ← _remove_repeated indices;
      OK {[ key_or_None key := VSet {[ expr ]} ]}
  | Number _ | Symbol _ => OK {[ KNone := VSet {[ expr ]} ]}
  | Mul args =>
      '(junk, junk', key) ← _get_indices_Mul get_indices args true;
      match key with
      | None => Raise ValueError
      | Some key =>
          let result : Structure := {[ key_or_None key := VSet {[ expr ]} ]} in
          let addfactors := filter (λ x, is_Add x) args in
          match addfactors with
          | [] => OK result
          | _ :: _ =>
              ds ← mapM_filter is_Add get_contraction_structure args;
              OK (<[ KExpr expr := VList ds ]> result)
          end
      end
  | Add args =>
      foldlM (λ result term,
                d ← get_contraction_structure term;
                merge_structure result d) ∅ args
  | Other ty _ =>
      if negb (has_Indexed expr) then OK {[ KNone := VSet {[ expr ]} ]}
      else Raise (NotImplementedError ty)
  end.

(** ** Notions used to state the properties *)

(** The number of occurrences of [x] in a sequence of indices. *)
Definition occurrences (x : Idx) (inds : list Idx) : nat :=
  length (filter (λ y, y = x) inds).

(** No element of the sequence occurs three times or more. *)
Definition at_most_twice (inds : list Idx) : Prop :=
  ∀ x, occurrences x inds ≤ 2.

(** The dict [sum_index] after the counting loop has run over [inds]. *)
Definition counts_of (sum_index : gmap Idx nat) (inds : list Idx) : Prop :=
  ∀ x, sum_index !! x =
       match occurrences x inds with 0 => None | S n => Some n end.

(** The order of a dict lists its keys, each of them once. *)
Definition dict_wf (d : Dict) : Prop :=
  NoDup (order d) ∧ ∀ x, x ∈ order d ↔ is_Some (entries d !! x).

(** The concatenation of the outer-index sequences of the factors of a
    product, from the results of [get_indices] on them. *)
Definition outer_sequence (rs : list (gset Idx * SymMap)) : list Idx :=
  concat (elements <$> rs.*1).

(** The symmetry map that [_get_indices_Mul] builds from the results of
    the factors. *)
Definition merged_symmetry (rs : list (gset Idx * SymMap)) : SymMap :=
  foldl merge_symmetry ∅ rs.*2.

(** The outer-index sets of the non-scalar terms of a sum. *)
Definition non_scalars (rs : list (gset Idx * SymMap)) : list (gset Idx) :=
  filter (λ x, x ≠ ∅) rs.*1.

(** An index counted three times or more by the deduplicator: in the index
    list of a leaf, or in the concatenated outer-index sequences of the
    factors of a product. *)
Inductive ambiguous : Expr → Prop :=
  | ambiguous_leaf base indices x :
      3 ≤ occurrences x indices →
      ambiguous (Indexed base indices)
  | ambiguous_product args rs x :
      mapM get_indices (Mul_terms args) = OK rs →
      3 ≤ occurrences x (outer_sequence rs) →
      ambiguous (Mul args).

(** The index occurrences of a multiplicative scope as the specification
    words it: the index list of an [Indexed] leaf, or the index lists of the
    leaves among the factors of a product, taken together. *)
Definition leaf_indices (expr : Expr) : list Idx :=
  match expr with
  | Indexed _ indices => indices
  | _ => []
  end.

Definition scope_occurrences (expr : Expr) : list Idx :=
  match expr with
  | Indexed _ indices => indices
  | Mul args => concat (leaf_indices <$> Mul_terms args)
  | _ => []
  end.

(** The values that the structures of the terms of a sum hold under a key,
    in the order of the terms. *)
Definition values_at (key : Key) (ds : list Structure) : list Value :=
  omap (λ d : Structure, d !! key) ds.

Definition is_VSet (v : Value) : Prop :=
  match v with VSet _ => True | VList _ => False end.

Definition value_set (v : Value) : gset Expr :=
  match v with VSet s => s | VList _ => ∅ end.

(** The key-wise merge as the specification words it: a key absent from
    every term is absent, a key of one term keeps its value, and a key that
    recurs holds the union of its value sets. *)
Definition keywise_merge (vs : list Value) : option Value :=
  match vs with
  | [] => None
  | [v] => Some v
  | _ :: _ :: _ => Some (VSet (⋃ (value_set <$> vs)))
  end.

(** No key that holds a list of nested structures occurs in the structures
    of two terms. *)
Definition mergeable (ds : list Structure) : Prop :=
  ∀ key, length (values_at key ds) ≤ 1 ∨ Forall is_VSet (values_at key ds).

(** The symmetry map of a result of [get_indices] is empty. *)
Definition symmetry_free (expr : Expr) : Prop :=
  ∀ inds sym, get_indices expr = OK (inds, sym) → sym = ∅.

(** What [merge_structure] computes when it does not raise. *)
Definition join (old new : Value) : option Value :=
  match old, new with
  | VSet a, VSet b => Some (VSet (a ∪ b))
  | _, _ => Some old
  end.

(** Keys present on both sides hold sets. *)
Definition compatible (result d : Structure) : Prop :=
  ∀ key old new, result !! key = Some old → d !! key = Some new →
                 is_VSet old ∧ is_VSet new.

Global Instance is_VSet_dec (v : Value) : Decision (is_VSet v).
Proof. destruct v; simpl; apply _. Defined.

(** A check of [mergeable] that can be run: only the keys of the structures
    themselves matter. *)
Definition mergeable_check (ds : list Structure) : bool :=
  forallb (λ key, bool_decide (length (values_at key ds) ≤ 1
                               ∨ Forall is_VSet (values_at key ds)))
          (ds ≫= λ d : Structure, (map_to_list d).*1).

(** The index keys of a structure ([None] and tuples) hold sets. *)
Definition sets_at_index_keys (d : Structure) : Prop :=
  ∀ key v, d !! key = Some v → (∀ e, key ≠ KExpr e) → is_VSet v.

(** ** Expressions of the examples *)

Module Examples.
Definition x (indices : list Idx) : Expr := Indexed "x" indices.
Definition y (indices : list Idx) : Expr := Indexed "y" indices.
Definition z (indices : list Idx) : Expr := Indexed "z" indices.
Definition A (indices : list Idx) : Expr := Indexed "A" indices.

(** [x[i,k]*y[j,k]] *)
Definition contraction : Expr := Mul [x ["i"; "k"]; y ["j"; "k"]].
(** [x[i]*y[j]] *)
Definition outer_product : Expr := Mul [x ["i"]; y ["j"]].
(** [x[i]*y[i]] *)
Definition inner_product : Expr := Mul [x ["i"]; y ["i"]].
(** [x[i]*y[i] + A[j,j]] *)
Definition inner_plus_trace : Expr := Add [inner_product; A ["j"; "j"]].
(** [x[i]*y[i]*z[i]] *)
Definition triple : Expr := Mul [x ["i"]; y ["i"]; z ["i"]].
(** [A[i,i]*x[i]] *)
Definition trace_times_vector : Expr := Mul [A ["i"; "i"]; x ["i"]].
(** [x[i]*(y[i] + z[i])] *)
Definition nested : Expr := Mul [x ["i"]; Add [y ["i"]; z ["i"]]].
(** the contraction structure of [nested] *)
Definition nested_structure : Structure :=
  <[ KExpr nested := VList [ {[ KNone := VSet {[ y ["i"]; z ["i"] ]} ]} ] ]>
    {[ KTuple ["i"] := VSet {[ nested ]} ]}.
(** [x[i]*(y[i] + z[i]) + x[i]*(y[i] + z[i])], built unevaluated *)
Definition nested_twice : Expr := Add [nested; nested].
(** [x[i] + y[i]*z[j]] *)
Definition mixed_sum : Expr := Add [x ["i"]; Mul [y ["i"]; z ["j"]]].
End Examples.


(** The number of factors of a product in which [x] is an outer index. *)
Definition outer_count (x : Idx) (rs : list (gset Idx * SymMap)) : nat :=
  length (filter (λ r, x ∈ r.1) rs).

(** What a key of a contraction structure holds: [None] and a tuple, which
    is never empty, hold a set; an expression key is a product with a sum
    factor and holds one nested structure for each of its sum factors. *)
Definition entry_ok (key : Key) (v : Value) : Prop :=
  match key with
  | KNone => is_VSet v
  | KTuple dummies => dummies ≠ [] ∧ is_VSet v
  | KExpr e =>
      ∃ args ds, e = Mul args ∧ v = VList ds
                 ∧ filter (λ f, is_Add f) args ≠ []
                 ∧ length ds = length (filter (λ f, is_Add f) args)
  end.

(** The terms of a sum, with the terms of a term that is itself a sum in
    its place; an expression that is not a sum is its only term. *)
Fixpoint summands (expr : Expr) : list Expr :=
  match expr with
  | Add args => concat (summands <$> args)
  | _ => [expr]
  end.

(** The sets of the structure [d], taken together, hold the expressions of
    [terms] and nothing else. *)
Definition holds_exactly (d : Structure) (terms : list Expr) : Prop :=
  ∀ t, t ∈ terms ↔ ∃ key s, d !! key = Some (VSet s) ∧ t ∈ s.

(** Every product that [get_indices] visits has a factor and every sum a
    term, as in the expressions that sympy builds; the arguments of other
    nodes are not visited. *)
Fixpoint has_arguments (expr : Expr) : bool :=
  match expr with
  | Mul args =>
      negb (bool_decide (Mul_terms args = [])) && forallb has_arguments args
  | Add args =>
      negb (bool_decide (args = [])) && forallb has_arguments args
  | _ => true
  end.

(** The indices of the [Indexed] leaves of an expression. *)
Fixpoint all_indices (expr : Expr) : gset Idx :=
  match expr with
  | Indexed _ indices => list_to_set indices
  | Number _ | Symbol _ => ∅
  | Mul args | Add args | Other _ args => ⋃ (all_indices <$> args)
  end.

(** The three failures that the module documents. *)
Definition documented (err : PyError) : Prop :=
  match err with
  | AssertionError _ | IndexConformanceException _ | NotImplementedError _ => True
  | ValueError | TypeError => False
  end.

(** ** sympy/physics/sho.py: the energy of the isotropic oscillator *)

Module Sho.
(** [Rational(3, 2)] *)
Definition three_halves : Qc := Q2Qc (Qmake 3 2).

(** [E_nl(n, l, hw)] on rational arguments, on which sympy computes with
    exact fractions in lowest terms. *)
Definition E_nl (n l hw : Qc) : Qc :=
  ((2 * n + l + three_halves) * hw)%Qc.
End Sho.

(** * Properties *)

(** ** The result monad *)

Lemma foldlM_app {A B : Type} (f : B → A → Res B) (b : B) (l1 l2 : list A) :
  foldlM f b (l1 ++ l2) = (b' ← foldlM f b l1; foldlM f b' l2).
Proof.
  revert b. induction l1 as [|x l1 IH]; intros b; simpl; [done|].
  destruct (f b x) as [b'|e]; simpl; [apply IH|done].
Qed.

Lemma mapM_filter_spec {A B : Type} (p : A → bool) (f : A → Res B) (l : list A) :
  mapM_filter p f l = mapM f (filter (λ x, p x) l).
Proof.
  induction l as [|x l IH]; simpl; [done|].
  rewrite filter_cons. destruct (p x); simpl; by rewrite IH.
Qed.

(** ** Counting occurrences *)

Lemma occurrences_nil x : occurrences x [] = 0.
Proof. done. Qed.

Lemma occurrences_cons x y inds :
  occurrences x (y :: inds) =
  (if decide (y = x) then 1 else 0) + occurrences x inds.
Proof. unfold occurrences. rewrite filter_cons. by case_decide. Qed.

Lemma occurrences_app x l1 l2 :
  occurrences x (l1 ++ l2) = occurrences x l1 + occurrences x l2.
Proof. unfold occurrences. by rewrite filter_app, length_app. Qed.

Lemma occurrences_pos x inds : x ∈ inds ↔ 0 < occurrences x inds.
Proof.
  induction inds as [|y inds IH].
  - rewrite occurrences_nil, elem_of_nil. lia.
  - rewrite occurrences_cons, elem_of_cons, IH.
    case_decide; intuition (try congruence; lia).
Qed.

(** ** The counting loop of [_remove_repeated] *)

Lemma dict_set_wf (d : Dict) (i : Idx) (n : nat) :
  dict_wf d → dict_wf (dict_set d i n).
Proof.
  intros [Hnd Hkeys]. unfold dict_set, dict_wf. simpl.
  destruct (decide (is_Some (entries d !! i))) as [Hi|Hi].
  - split; [done|]. intros x. rewrite Hkeys, lookup_insert_is_Some.
    split; [|intros [<-|[_ ?]]; done].
    intros Hx. destruct (decide (i = x)); [by left|by right].
  - split.
    + apply NoDup_app. split_and!; [done| |apply NoDup_singleton].
      intros x Hx ->%list_elem_of_singleton. by apply Hi, Hkeys.
    + intros x. rewrite elem_of_app, list_elem_of_singleton, Hkeys,
        lookup_insert_is_Some.
      split.
      * intros [Hx| ->]; [|by left].
        destruct (decide (i = x)); [by left|by right].
      * intros [<-|[_ ?]]; [by right|by left].
Qed.

Lemma count_index_wf (d d' : Dict) (i : Idx) :
  dict_wf d → count_index d i = OK d' → dict_wf d'.
Proof.
  intros Hwf. unfold count_index.
  destruct (entries d !! i) as [n|]; [case_decide|]; intros [= <-];
    by apply dict_set_wf.
Qed.

Lemma count_loop_wf (inds : list Idx) (d d' : Dict) :
  dict_wf d → foldlM count_index d inds = OK d' → dict_wf d'.
Proof.
  revert d. induction inds as [|i inds IH]; intros d Hwf Hrun; simpl in Hrun.
  - by simplify_eq.
  - destruct (count_index d i) as [d0|e] eqn:Hstep; [|done].
    apply (IH d0); [|done]. by apply (count_index_wf d d0 i).
Qed.

Lemma empty_dict_wf : dict_wf empty_dict.
Proof.
  split; [apply NoDup_nil_2|]. intros x. simpl. rewrite lookup_empty.
  split; [by intros ?%elem_of_nil|by intros [? ?]].
Qed.

Lemma count_loop_spec (inds : list Idx) :
  (∃ m, foldlM count_index empty_dict inds = OK m
        ∧ counts_of (entries m) inds ∧ at_most_twice inds)
  ∨ (∃ i, foldlM count_index empty_dict inds = Raise (AssertionError i)
          ∧ 3 ≤ occurrences i inds).
Proof.
  induction inds as [|y inds IH] using rev_ind.
  - left. exists empty_dict. split_and!; [done| |].
    + intros x. simpl. by rewrite lookup_empty.
    + intros x. rewrite occurrences_nil. lia.
  - rewrite foldlM_app.
    destruct IH as [(m & -> & Hm & Hle)|(i & -> & Hi)]; simpl.
    2:{ right. exists i. split; [done|]. rewrite occurrences_app. lia. }
    unfold count_index. pose proof (Hm y) as Hy. pose proof (Hle y) as Hy2.
    destruct (occurrences y inds) as [|[|n]] eqn:Hocc; rewrite Hy; simpl.
    + left. eexists. split; [done|]. split.
      * intros x. simpl.
        rewrite occurrences_app, occurrences_cons, occurrences_nil.
        destruct (decide (y = x)) as [->|Hne].
        -- rewrite lookup_insert_eq, Hocc. done.
        -- rewrite lookup_insert_ne by done. rewrite Hm.
           by replace (occurrences x inds + (0 + 0)) with (occurrences x inds) by lia.
      * intros x. rewrite occurrences_app, occurrences_cons, occurrences_nil.
        case_decide; subst; [lia|]. specialize (Hle x). lia.
    + left. eexists. split; [done|]. split.
      * intros x. simpl.
        rewrite occurrences_app, occurrences_cons, occurrences_nil.
        destruct (decide (y = x)) as [->|Hne].
        -- rewrite lookup_insert_eq, Hocc. done.
        -- rewrite lookup_insert_ne by done. rewrite Hm.
           by replace (occurrences x inds + (0 + 0)) with (occurrences x inds) by lia.
      * intros x. rewrite occurrences_app, occurrences_cons, occurrences_nil.
        case_decide; subst; [lia|]. specialize (Hle x). lia.
    + right. exists y. assert (n = 0) as -> by lia. simpl. split; [done|].
      rewrite occurrences_app, occurrences_cons, occurrences_nil.
      rewrite decide_True by done. lia.
Qed.

Lemma count_loop_ok (inds : list Idx) :
  at_most_twice inds →
  ∃ m, foldlM count_index empty_dict inds = OK m
       ∧ counts_of (entries m) inds ∧ dict_wf m.
Proof.
  intros Hle. destruct (count_loop_spec inds) as [(m & Hm & ? & _)|(i & _ & Hi)].
  - exists m. split_and!; [done..|].
    by apply (count_loop_wf inds empty_dict m empty_dict_wf).
  - specialize (Hle i). lia.
Qed.

Lemma count_loop_raise (inds : list Idx) (x : Idx) :
  3 ≤ occurrences x inds →
  ∃ i, foldlM count_index empty_dict inds = Raise (AssertionError i)
       ∧ 3 ≤ occurrences i inds.
Proof.
  intros Hx. destruct (count_loop_spec inds) as [(m & _ & _ & Hle)|?]; [|done].
  specialize (Hle x). lia.
Qed.

(** The indices kept by the [filter] are those counted once. *)
Lemma elem_of_once (m : gmap Idx nat) (inds : list Idx) (x : Idx) :
  counts_of m inds →
  x ∈ (list_to_set (filter (λ y, m !!! y = 0) inds) : gset Idx)
  ↔ occurrences x inds = 1.
Proof.
  intros Hm. rewrite elem_of_list_to_set, list_elem_of_filter, occurrences_pos.
  rewrite lookup_total_alt, Hm.
  destruct (occurrences x inds) as [|[|n]]; simpl;
    intuition (try congruence; lia).
Qed.

(** The keys listed in the tuple are those counted twice. *)
Lemma elem_of_repeated_keys (m : Dict) (inds : list Idx) (x : Idx) :
  dict_wf m → counts_of (entries m) inds → at_most_twice inds →
  x ∈ repeated_keys m ↔ occurrences x inds = 2.
Proof.
  intros [_ Hkeys] Hm Hle. unfold repeated_keys.
  rewrite list_elem_of_filter, Hkeys, lookup_total_alt, Hm.
  specialize (Hle x).
  destruct (occurrences x inds) as [|[|[|?]]]; simpl; [| | |lia].
  - split; [by intros [_ [? ?]]|done].
  - split; [by intros [? _]|done].
  - split; [done|]. intros _. split; [done|by eexists].
Qed.

Lemma NoDup_repeated_keys (m : Dict) : dict_wf m → NoDup (repeated_keys m).
Proof. intros [Hnd _]. unfold repeated_keys. by apply NoDup_filter. Qed.

(** [_remove_repeated] on a sequence without a third occurrence. *)
Lemma remove_repeated_ok (inds : list Idx) :
  at_most_twice inds →
  ∃ once twice,
    _remove_repeated inds = OK (once, twice)
    ∧ (∀ x, x ∈ once ↔ occurrences x inds = 1)
    ∧ (∀ x, x ∈ twice ↔ occurrences x inds = 2)
    ∧ NoDup twice.
Proof.
  intros Hle. destruct (count_loop_ok inds Hle) as (m & Hrun & Hm & Hwf).
  unfold _remove_repeated. rewrite Hrun. simpl.
  eexists _, _. split; [done|]. split_and!.
  - intros x. by apply elem_of_once.
  - intros x. by apply elem_of_repeated_keys.
  - by apply NoDup_repeated_keys.
Qed.

(** [_remove_repeated] on a sequence with a third occurrence. *)
Lemma remove_repeated_raise (inds : list Idx) (x : Idx) :
  3 ≤ occurrences x inds →
  ∃ i, _remove_repeated inds = Raise (AssertionError i)
       ∧ 3 ≤ occurrences i inds.
Proof.
  intros Hx. destruct (count_loop_raise inds x Hx) as (i & Hrun & Hi).
  exists i. unfold _remove_repeated. by rewrite Hrun.
Qed.

(** The example of the docstring. *)
Example remove_repeated_doc :
  _remove_repeated ["1"; "2"; "3"; "2"] = OK ({["1"; "3"]}, ["2"]).
Proof. vm_compute. reflexivity. Qed.

(** A sufficient check of [at_most_twice] that can be run. *)
Lemma at_most_twice_check (inds : list Idx) :
  forallb (λ x, bool_decide (occurrences x inds ≤ 2)) inds = true →
  at_most_twice inds.
Proof.
  intros Hall x. destruct (decide (x ∈ inds)) as [Hin|Hnin].
  - rewrite forallb_forall in Hall. apply list_elem_of_In, Hall in Hin.
    by apply bool_decide_eq_true in Hin.
  - rewrite occurrences_pos in Hnin. lia.
Qed.

(** ** Inversion of monadic code *)

Lemma bind_OK {A B : Type} (m : Res A) (k : A → Res B) (b : B) :
  m ≫= k = OK b → ∃ a, m = OK a ∧ k a = OK b.
Proof. destruct m as [a|e]; simpl; [eauto|done]. Qed.

Lemma mapM_OK {A B : Type} (f : A → Res B) (l : list A) (rs : list B) :
  mapM f l = OK rs ↔ Forall2 (λ x r, f x = OK r) l rs.
Proof.
  revert rs. induction l as [|x l IH]; intros rs; simpl.
  - split; [intros [= <-]; constructor|by inversion 1].
  - split.
    + intros (r & Hr & (rs' & Hrs & [= <-])%bind_OK)%bind_OK.
      constructor; [done|by apply IH].
    + inversion 1 as [|? r ? rs' Hr Hrs]; subst. rewrite Hr. simpl.
      apply IH in Hrs. by rewrite Hrs.
Qed.

Lemma mapM_OK_nil {A B : Type} (f : A → Res B) (l : list A) (rs : list B) :
  mapM f l = OK rs → rs ≠ [] ↔ l ≠ [].
Proof. intros Hrs%mapM_OK. destruct Hrs; naive_solver. Qed.

Lemma zip_star_cons {A B : Type} (pairs : list (A * B)) :
  pairs ≠ [] → zip_star pairs = OK (pairs.*1, pairs.*2).
Proof. by destruct pairs. Qed.

Lemma reduce_app_concat (ls : list (list Idx)) :
  ls ≠ [] → reduce app ls = OK (concat ls).
Proof.
  destruct ls as [|l ls]; [done|]. intros _. unfold reduce. f_equal.
  simpl. revert l. induction ls as [|l' ls IH]; intros l; simpl.
  - by rewrite app_nil_r.
  - by rewrite IH, app_assoc.
Qed.

(** ** Unfolding the helpers once the sub-results are known *)

Lemma get_indices_Mul_unfold (args : list Expr) (return_dummies : bool)
    (rs : list (gset Idx * SymMap)) :
  mapM get_indices (Mul_terms args) = OK rs → rs ≠ [] →
  _get_indices_Mul get_indices args return_dummies =
    '(once, twice) ← _remove_repeated (outer_sequence rs);
    OK (once, merged_symmetry rs, if return_dummies then Some twice else None).
Proof.
  intros Hrs Hne. unfold _get_indices_Mul. simpl. rewrite Hrs. simpl.
  rewrite zip_star_cons by done. simpl.
  rewrite reduce_app_concat by (by destruct rs). simpl.
  fold (outer_sequence rs). fold (merged_symmetry rs).
  destruct (_remove_repeated (outer_sequence rs)) as [[once twice]|e]; simpl;
    [by destruct return_dummies|done].
Qed.

Lemma get_indices_Mul_eq (args : list Expr) (rs : list (gset Idx * SymMap)) :
  mapM get_indices (Mul_terms args) = OK rs → rs ≠ [] →
  get_indices (Mul args) =
    '(once, twice) ← _remove_repeated (outer_sequence rs);
    OK (once, merged_symmetry rs).
Proof.
  intros Hrs Hne. simpl. rewrite (get_indices_Mul_unfold _ _ rs) by done.
  by destruct (_remove_repeated (outer_sequence rs)) as [[once twice]|e].
Qed.

Lemma get_indices_Add_unfold (args : list Expr) (rs : list (gset Idx * SymMap)) :
  mapM get_indices args = OK rs → rs ≠ [] →
  get_indices (Add args) =
    match non_scalars rs with
    | [] => OK (∅, ∅)
    | first :: others =>
        if negb (forallb (λ x, bool_decide (x = first)) others)
        then Raise (IndexConformanceException (Add args))
        else
          r ← reduce differs_or_second (PyDict <$> rs.*2);
          OK (first, if negb (truth r) then default ∅ (head rs.*2) else ∅)
    end.
Proof.
  intros Hrs Hne. simpl. unfold _get_indices_Add. rewrite Hrs. simpl.
  rewrite zip_star_cons by done. done.
Qed.

(** ** Symmetry maps *)

Lemma merge_symmetry_empty : merge_symmetry ∅ ∅ = ∅.
Proof.
  apply map_eq. intros pair. unfold merge_symmetry.
  by rewrite lookup_union_with, lookup_empty.
Qed.

Lemma merged_symmetry_empty (rs : list (gset Idx * SymMap)) :
  Forall (λ r, r.2 = ∅) rs → merged_symmetry rs = ∅.
Proof.
  unfold merged_symmetry. induction 1 as [|r rs Hr _ IH]; simpl; [done|].
  by rewrite Hr, merge_symmetry_empty.
Qed.

Lemma Forall_Mul_terms (P : Expr → Prop) (args : list Expr) :
  Forall P args → Forall P (Mul_terms args).
Proof.
  destruct 1 as [|c rest Hc Hrest]; simpl; [done|].
  destruct (is_Number c); by try constructor.
Qed.

Lemma mapM_symmetry_free (l : list Expr) (rs : list (gset Idx * SymMap)) :
  Forall symmetry_free l → mapM get_indices l = OK rs →
  Forall (λ r, r.2 = ∅) rs.
Proof.
  intros Hl Hrs%mapM_OK. induction Hrs as [|x [inds sym] l rs Hx _ IH];
    [done|].
  inversion Hl as [|? ? Hfree Hl']; subst. constructor; [|by apply IH].
  simpl. by eapply Hfree.
Qed.

Lemma get_indices_symmetry_free (expr : Expr) : symmetry_free expr.
Proof.
  induction expr as [base indices|n|name|args IH|args IH|ty args _]
    using Expr_nested_ind; intros inds sym Hget.
  - simpl in Hget. apply bind_OK in Hget as ([once twice] & _ & Hget).
    by simplify_eq.
  - by simplify_eq/=.
  - by simplify_eq/=.
  - destruct (mapM get_indices (Mul_terms args)) as [rs|e] eqn:Hrs.
    2:{ simpl in Hget. unfold _get_indices_Mul in Hget. simpl in Hget.
        by rewrite Hrs in Hget. }
    destruct (decide (rs = [])) as [->|Hne].
    { simpl in Hget. unfold _get_indices_Mul in Hget. simpl in Hget.
      by rewrite Hrs in Hget. }
    rewrite (get_indices_Mul_eq _ rs) in Hget by done.
    apply bind_OK in Hget as ([once twice] & _ & Hget). simplify_eq.
    apply merged_symmetry_empty.
    eapply mapM_symmetry_free; [|done]. by apply Forall_Mul_terms.
  - destruct (mapM get_indices args) as [rs|e] eqn:Hrs.
    2:{ simpl in Hget. unfold _get_indices_Add in Hget. by rewrite Hrs in Hget. }
    destruct (decide (rs = [])) as [->|Hne].
    { simpl in Hget. unfold _get_indices_Add in Hget. by rewrite Hrs in Hget. }
    rewrite (get_indices_Add_unfold _ rs) in Hget by done.
    pose proof (mapM_symmetry_free _ _ IH Hrs) as Hfree.
    destruct (non_scalars rs) as [|first others]; [by simplify_eq|].
    destruct (negb _); [done|].
    apply bind_OK in Hget as (r & _ & Hget). simplify_eq.
    destruct (negb (truth r)); [|done].
    destruct Hfree as [|[? ?] ? Hr _]; [done|]. by simpl in *.
  - simpl in Hget. destruct (negb _); by simplify_eq.
Qed.

(** ** Merging contraction structures *)

Lemma merge_items_ok (items : list (Key * Value)) (result : Structure) :
  NoDup items.*1 → compatible result (list_to_map items) →
  foldlM merge_item result items = OK (union_with join result (list_to_map items)).
Proof.
  revert result. induction items as [|[key value] items IH];
    intros result Hnd Hcompat; simpl.
  - f_equal. apply map_eq. intros k.
    rewrite lookup_union_with, lookup_empty. by destruct (result !! k).
  - apply NoDup_cons in Hnd as [Hkey Hnd]. simpl in Hcompat.
    assert (list_to_map (M:=Structure) items !! key = None) as Hfresh.
    { by apply not_elem_of_list_to_map_1. }
    assert (∀ new, compatible (<[key:=new]> result) (list_to_map items)) as Hcompat'.
    { intros new k old' new' Hold Hnew.
      destruct (decide (k = key)) as [->|Hne]; [congruence|].
      rewrite lookup_insert_ne in Hold by done.
      apply (Hcompat k); [done|]. by rewrite lookup_insert_ne. }
    destruct (result !! key) as [old|] eqn:Hold.
    + destruct (Hcompat key old value Hold) as [Ho Hv];
        [by rewrite lookup_insert_eq|].
      destruct old as [a|?], value as [b|?]; try done. simpl.
      rewrite IH by done. f_equal. apply map_eq. intros k.
      rewrite !lookup_union_with.
      destruct (decide (k = key)) as [->|Hne].
      * by rewrite !lookup_insert_eq, Hfresh, Hold.
      * by rewrite !lookup_insert_ne.
    + simpl. rewrite IH by done. f_equal. apply map_eq. intros k.
      rewrite !lookup_union_with.
      destruct (decide (k = key)) as [->|Hne].
      * by rewrite !lookup_insert_eq, Hfresh, Hold.
      * by rewrite !lookup_insert_ne.
Qed.

Lemma merge_structure_ok (result d : Structure) :
  compatible result d →
  merge_structure result d = OK (union_with join result d).
Proof.
  intros Hcompat. unfold merge_structure.
  rewrite merge_items_ok.
  - by rewrite list_to_map_to_list.
  - apply NoDup_fst_map_to_list.
  - by rewrite list_to_map_to_list.
Qed.

Lemma values_at_snoc (key : Key) (ds : list Structure) (d : Structure) :
  values_at key (ds ++ [d]) = values_at key ds ++ option_list (d !! key).
Proof.
  unfold values_at. rewrite omap_app. simpl. by destruct (d !! key).
Qed.

Lemma mergeable_snoc (ds : list Structure) (d : Structure) :
  mergeable (ds ++ [d]) → mergeable ds.
Proof.
  intros Hm key. specialize (Hm key). rewrite values_at_snoc in Hm.
  destruct Hm as [Hlen|Hall].
  - left. rewrite length_app in Hlen. lia.
  - right. by apply Forall_app in Hall as [? _].
Qed.

Lemma keywise_merge_is_VSet (vs : list Value) (v : Value) :
  Forall is_VSet vs → keywise_merge vs = Some v → is_VSet v.
Proof.
  destruct 1 as [|v1 vs Hv1 [|v2 vs' Hv2 Hvs]]; simpl; intros [= <-]; done.
Qed.

Lemma keywise_merge_snoc (vs : list Value) (old new : Value) :
  keywise_merge vs = Some old → is_VSet old → is_VSet new →
  keywise_merge (vs ++ [new]) = join old new.
Proof.
  intros Hold Ho Hn. destruct new as [b|?]; [|done].
  destruct vs as [|v1 [|v2 vs]]; simplify_eq/=.
  - destruct old as [a|?]; [|done]. simpl. do 2 f_equal.
    by rewrite !(right_id_L ∅ (∪)).
  - do 2 f_equal. rewrite fmap_app, union_list_app_L. simpl.
    by rewrite (right_id_L ∅ (∪)), !(assoc_L (∪)).
Qed.

(** The loop of the [Add] branch over structures that can be merged. *)
Lemma merge_all_ok (ds : list Structure) :
  mergeable ds →
  ∃ result, foldlM merge_structure ∅ ds = OK result
            ∧ ∀ key, result !! key = keywise_merge (values_at key ds).
Proof.
  induction ds as [|d ds IH] using rev_ind; intros Hm.
  - exists ∅. split; [done|]. intros key. by rewrite lookup_empty.
  - destruct (IH (mergeable_snoc _ _ Hm)) as (result & Hrun & Hresult).
    assert (compatible result d) as Hcompat.
    { intros key old new Hold Hnew. specialize (Hm key).
      rewrite values_at_snoc, Hnew in Hm. rewrite Hresult in Hold.
      destruct Hm as [Hlen|[Hvs Hn]%Forall_app].
      - rewrite length_app in Hlen. simpl in Hlen.
        destruct (values_at key ds); [done|simpl in Hlen; lia].
      - split; [|by inversion Hn].
        by apply (keywise_merge_is_VSet (values_at key ds)). }
    rewrite foldlM_app, Hrun. simpl. rewrite merge_structure_ok by done.
    eexists. split; [done|]. intros key.
    rewrite lookup_union_with, values_at_snoc, Hresult.
    destruct (d !! key) as [new|] eqn:Hnew; simpl.
    + destruct (keywise_merge (values_at key ds)) as [old|] eqn:Hold; simpl.
      * destruct (Hcompat key old new) as [Ho Hn]; [by rewrite Hresult| done|].
        by rewrite (keywise_merge_snoc _ old).
      * by destruct (values_at key ds) as [|? [|? ?]].
    + rewrite app_nil_r. by destruct (keywise_merge _).
Qed.

Lemma structure_Add_fold (args : list Expr) (ds : list Structure) (acc : Structure) :
  mapM get_contraction_structure args = OK ds →
  foldlM (λ result term,
            d ← get_contraction_structure term;
            merge_structure result d) acc args
  = foldlM merge_structure acc ds.
Proof.
  intros Hds%mapM_OK. revert acc.
  induction Hds as [|term d args ds Hd _ IH]; intros acc; simpl; [done|].
  rewrite Hd. simpl. destruct (merge_structure acc d); simpl; [apply IH|done].
Qed.

(** ** Leaves *)

Lemma at_most_twice_pair (i : Idx) : at_most_twice [i; i].
Proof.
  intros x. rewrite !occurrences_cons, occurrences_nil. case_decide; simpl; lia.
Qed.

Lemma at_most_twice_single (i : Idx) : at_most_twice [i].
Proof.
  intros x. rewrite !occurrences_cons, occurrences_nil. case_decide; simpl; lia.
Qed.

Lemma get_indices_Indexed_ok (base : string) (indices : list Idx) :
  at_most_twice indices →
  ∃ once, get_indices (Indexed base indices) = OK (once, ∅)
          ∧ ∀ x, x ∈ once ↔ occurrences x indices = 1.
Proof.
  intros (once & twice & Hrun & Honce & _)%remove_repeated_ok.
  exists once. simpl. by rewrite Hrun.
Qed.

Lemma get_indices_trace (base : string) (i : Idx) :
  get_indices (Indexed base [i; i]) = OK (∅, ∅).
Proof.
  destruct (get_indices_Indexed_ok base [i; i] (at_most_twice_pair i))
    as (once & -> & Honce).
  do 2 f_equal. apply set_eq. intros x.
  rewrite Honce, !occurrences_cons, occurrences_nil, elem_of_empty.
  case_decide; simpl; lia.
Qed.

Lemma get_indices_vector (base : string) (i : Idx) :
  get_indices (Indexed base [i]) = OK ({[ i ]}, ∅).
Proof.
  destruct (get_indices_Indexed_ok base [i] (at_most_twice_single i))
    as (once & -> & Honce).
  do 2 f_equal. apply set_eq. intros x.
  rewrite Honce, !occurrences_cons, occurrences_nil, elem_of_singleton.
  case_decide; simpl; intuition (try congruence; lia).
Qed.

(** ** Sums *)

Lemma reduce_cons {A : Type} (f : A → A → A) (seq : list A) :
  seq ≠ [] → ∃ r, reduce f seq = OK r.
Proof. destruct seq; [done|]. simpl. eauto. Qed.

Lemma non_scalars_elem (rs : list (gset Idx * SymMap)) (s : gset Idx) :
  s ∈ non_scalars rs ↔ s ≠ ∅ ∧ s ∈ rs.*1.
Proof. unfold non_scalars. by rewrite list_elem_of_filter. Qed.

Lemma conformance_check (first : gset Idx) (others : list (gset Idx)) :
  forallb (λ x, bool_decide (x = first)) others = true
  ↔ ∀ s, s ∈ first :: others → s = first.
Proof.
  rewrite forallb_forall. split.
  - intros Hall s [->|Hs]%elem_of_cons; [done|].
    apply list_elem_of_In, Hall in Hs. by apply bool_decide_eq_true in Hs.
  - intros Hall s Hs%list_elem_of_In. apply bool_decide_eq_true, Hall.
    by apply elem_of_cons; right.
Qed.

(** A conforming sum of terms that succeed. *)
Lemma get_indices_Add_conforming (args : list Expr)
    (rs : list (gset Idx * SymMap)) (first : gset Idx) (others : list (gset Idx)) :
  mapM get_indices args = OK rs →
  non_scalars rs = first :: others →
  (∀ s, s ∈ first :: others → s = first) →
  get_indices (Add args) = OK (first, ∅).
Proof.
  intros Hrs Hns Hall.
  assert (rs ≠ []) as Hne by (by intros ->).
  rewrite (get_indices_Add_unfold _ rs), Hns by done.
  apply conformance_check in Hall. rewrite Hall. simpl.
  destruct (reduce_cons differs_or_second (PyDict <$> rs.*2)) as [r ->].
  { by destruct rs. }
  simpl. do 2 f_equal. destruct (negb (truth r)); [|done].
  assert (Forall symmetry_free args) as Hfree.
  { apply Forall_forall. intros. apply get_indices_symmetry_free. }
  destruct (mapM_symmetry_free _ _ Hfree Hrs) as [|[? ?] ? Hr _]; [done|].
  by simpl in *.
Qed.

(** A sum of terms that succeed raises nothing but the conformance error. *)
Lemma get_indices_Add_nonconforming (args : list Expr)
    (rs : list (gset Idx * SymMap)) (first : gset Idx) (others : list (gset Idx)) :
  mapM get_indices args = OK rs →
  non_scalars rs = first :: others →
  ¬ (∀ s, s ∈ first :: others → s = first) →
  get_indices (Add args) = Raise (IndexConformanceException (Add args)).
Proof.
  intros Hrs Hns Hall.
  assert (rs ≠ []) as Hne by (by intros ->).
  rewrite (get_indices_Add_unfold _ rs), Hns by done.
  rewrite <- conformance_check in Hall. apply not_true_is_false in Hall.
  by rewrite Hall.
Qed.

Lemma get_indices_Add_scalar (args : list Expr) (rs : list (gset Idx * SymMap)) :
  mapM get_indices args = OK rs → rs ≠ [] →
  non_scalars rs = [] →
  get_indices (Add args) = OK (∅, ∅).
Proof. intros Hrs Hne Hns. by rewrite (get_indices_Add_unfold _ rs), Hns. Qed.

Lemma get_indices_nonconformant_pair (x y : string) (i j : Idx) :
  i ≠ j →
  get_indices (Add [Indexed x [i]; Indexed y [j]])
  = Raise (IndexConformanceException (Add [Indexed x [i]; Indexed y [j]])).
Proof.
  intros Hij.
  apply (get_indices_Add_nonconforming _ [({[i]}, ∅); ({[j]}, ∅)] {[i]} [{[j]}]).
  - cbn [mapM]. by rewrite !get_indices_vector.
  - unfold non_scalars. cbn [fmap list_fmap fst].
    rewrite !filter_cons, filter_nil.
    rewrite !decide_True; [done| |].
    + intros Hs. apply (f_equal (λ s : gset Idx, bool_decide (j ∈ s))) in Hs.
      rewrite bool_decide_eq_true_2 in Hs by (by apply elem_of_singleton).
      by rewrite bool_decide_eq_false_2 in Hs by apply not_elem_of_empty.
    + intros Hs. apply (f_equal (λ s : gset Idx, bool_decide (i ∈ s))) in Hs.
      rewrite bool_decide_eq_true_2 in Hs by (by apply elem_of_singleton).
      by rewrite bool_decide_eq_false_2 in Hs by apply not_elem_of_empty.
  - intros Hall. specialize (Hall {[j]}).
    assert (({[j]} : gset Idx) = {[i]}) as Hs.
    { apply Hall. apply elem_of_cons; right. by apply elem_of_cons; left. }
    apply Hij. symmetry. apply (elem_of_singleton (C:=gset Idx)).
    rewrite <- Hs. by apply elem_of_singleton.
Qed.

Lemma values_at_absent (key : Key) (ds : list Structure) :
  key ∉ (ds ≫= λ d : Structure, (map_to_list d).*1) → values_at key ds = [].
Proof.
  induction ds as [|d ds IH]; [done|]. intros Hkey.
  rewrite bind_cons, elem_of_app in Hkey.
  unfold values_at. simpl. fold (values_at key ds).
  destruct (d !! key) as [v|] eqn:Hd.
  - destruct Hkey. left. apply list_elem_of_fmap. exists (key, v).
    split; [done|]. by apply elem_of_map_to_list.
  - apply IH. tauto.
Qed.

Lemma mergeable_check_sound (ds : list Structure) :
  mergeable_check ds = true → mergeable ds.
Proof.
  unfold mergeable_check. rewrite forallb_forall. intros Hcheck key.
  destruct (decide (key ∈ (ds ≫= λ d : Structure, (map_to_list d).*1)))
    as [Hin|Hnin].
  - apply list_elem_of_In, Hcheck in Hin. by apply bool_decide_eq_true in Hin.
  - left. rewrite values_at_absent by done. simpl. lia.
Qed.

(** ** The sums that sympy builds *)

(** The terms of a sum that sympy builds are distinct and none of them is a
    sum; the structures of such terms can always be merged. *)

Lemma merge_items_values (items : list (Key * Value)) (result r : Structure) :
  foldlM merge_item result items = OK r →
  ∀ key v, r !! key = Some v →
           is_VSet v ∨ result !! key = Some v ∨ (key, v) ∈ items.
Proof.
  revert result. induction items as [|[k0 v0] items IH]; intros result Hrun key v Hv.
  - simpl in Hrun. simplify_eq. by right; left.
  - simpl in Hrun. apply bind_OK in Hrun as (result' & Hitem & Hrun).
    destruct (IH _ Hrun key v Hv) as [?|[Hres|Hin]]; [by left| |].
    2:{ right; right. by apply elem_of_cons; right. }
    destruct (result !! k0) as [old|] eqn:Hold.
    + destruct old as [a|?], v0 as [b|?]; simplify_eq/=.
      apply lookup_insert_Some in Hres as [[<- <-]|[_ Hres]]; [by left|].
      by right; left.
    + simplify_eq/=.
      apply lookup_insert_Some in Hres as [[<- <-]|[_ Hres]].
      * right; right. by apply elem_of_cons; left.
      * by right; left.
Qed.

Lemma merge_structure_sets (result d r : Structure) :
  merge_structure result d = OK r →
  sets_at_index_keys result → sets_at_index_keys d → sets_at_index_keys r.
Proof.
  intros Hrun Hresult Hd key v Hv Hkey.
  destruct (merge_items_values _ _ _ Hrun key v Hv) as [?|[Hres|Hin]]; [done| |].
  - by apply (Hresult key).
  - apply elem_of_map_to_list in Hin. by apply (Hd key).
Qed.

Lemma sets_at_index_keys_singleton (key : Key) (s : gset Expr) :
  sets_at_index_keys {[ key := VSet s ]}.
Proof. by intros k v [_ <-]%lookup_singleton_Some _. Qed.

Lemma structure_sets_at_index_keys (expr : Expr) (d : Structure) :
  get_contraction_structure expr = OK d → sets_at_index_keys d.
Proof.
  revert d.
  induction expr as [base indices|n|name|args _|args IH|ty args _]
    using Expr_nested_ind; intros d Hget.
  - simpl in Hget. apply bind_OK in Hget as ([once twice] & _ & Hget).
    simplify_eq. apply sets_at_index_keys_singleton.
  - simplify_eq/=. apply sets_at_index_keys_singleton.
  - simplify_eq/=. apply sets_at_index_keys_singleton.
  - simpl in Hget. apply bind_OK in Hget as ([[inds sym] [key|]] & _ & Hget);
      [|done].
    destruct (filter (λ x, is_Add x) args).
    + simplify_eq. apply sets_at_index_keys_singleton.
    + apply bind_OK in Hget as (ds & _ & Hget). simplify_eq.
      intros k v Hv Hk. rewrite lookup_insert_ne in Hv by (intros <-; by eapply Hk).
      by eapply sets_at_index_keys_singleton.
  - simpl in Hget.
    assert (sets_at_index_keys ∅) as Hacc.
    { intros k v Hv. by rewrite lookup_empty in Hv. }
    revert Hget Hacc. generalize (∅ : Structure) as acc.
    induction IH as [|term args Hterm _ IHargs]; intros acc Hget Hacc; simpl in Hget.
    + by simplify_eq.
    + apply bind_OK in Hget as (acc' & Hstep & Hget).
      apply bind_OK in Hstep as (d' & Hd' & Hmerge).
      apply (IHargs acc'); [done|].
      eapply merge_structure_sets; [done..|]. by apply Hterm.
  - simpl in Hget. destruct (negb _); simplify_eq.
    apply sets_at_index_keys_singleton.
Qed.

(** The only expression key of the structure of a term that is not a sum
    is the term itself. *)
Lemma structure_expr_key (expr : Expr) (d : Structure) (e : Expr) (v : Value) :
  is_Add expr = false →
  get_contraction_structure expr = OK d →
  d !! KExpr e = Some v → e = expr.
Proof.
  intros Hsum Hget Hv.
  destruct expr as [base indices|n|name|args|args|ty args]; simpl in Hget.
  - apply bind_OK in Hget as ([once twice] & _ & Hget). simplify_eq.
    apply lookup_singleton_Some in Hv as [Hk _]. by destruct twice.
  - injection Hget as <-. by apply lookup_singleton_Some in Hv as [? _].
  - injection Hget as <-. by apply lookup_singleton_Some in Hv as [? _].
  - apply bind_OK in Hget as ([[inds sym] [key|]] & _ & Hget); [|done].
    destruct (filter (λ x, is_Add x) args).
    + injection Hget as <-.
      apply lookup_singleton_Some in Hv as [Hk _]. by destruct key.
    + apply bind_OK in Hget as (ds & _ & Hget). simplify_eq.
      apply lookup_insert_Some in Hv as [[[= <-] _]|[_ Hv]]; [done|].
      apply lookup_singleton_Some in Hv as [Hk _]. by destruct key.
  - done.
  - destruct (negb _); [|done]. injection Hget as <-.
    by apply lookup_singleton_Some in Hv as [? _].
Qed.

Lemma values_at_cons (key : Key) (d : Structure) (ds : list Structure) :
  values_at key (d :: ds) = option_list (d !! key) ++ values_at key ds.
Proof. unfold values_at. simpl. by destruct (d !! key). Qed.

Lemma values_at_foreign (term : Expr) (args : list Expr) (ds : list Structure) :
  term ∉ args → Forall (λ term, is_Add term = false) args →
  Forall2 (λ x r, get_contraction_structure x = OK r) args ds →
  values_at (KExpr term) ds = [].
Proof.
  intros Hterm Hterms Hds.
  induction Hds as [|term' d' args ds Hd' _ IH]; [done|].
  apply Forall_cons in Hterms as [Hsum' Hterms].
  apply not_elem_of_cons in Hterm as [Hne Hterm].
  rewrite values_at_cons, IH by done.
  destruct (d' !! KExpr term) as [v'|] eqn:Hv'; [|done].
  by apply (structure_expr_key term') in Hv'.
Qed.

Lemma canonical_mergeable (args : list Expr) (ds : list Structure) :
  NoDup args → Forall (λ term, is_Add term = false) args →
  mapM get_contraction_structure args = OK ds →
  mergeable ds.
Proof.
  intros Hnd Hterms Hds%mapM_OK key.
  assert ((∃ e, key = KExpr e) ∨ ¬ (∃ e, key = KExpr e)) as [[e ->]|Hkey].
  { destruct key; [right|right|left; eauto]; by intros [? ?]. }
  - left. induction Hds as [|term d args ds Hd Hds IH]; [simpl; lia|].
    apply NoDup_cons in Hnd as [Hterm Hnd].
    apply Forall_cons in Hterms as [Hsum Hterms].
    rewrite values_at_cons.
    destruct (d !! KExpr e) as [v|] eqn:Hv; [|by apply IH].
    apply (structure_expr_key term) in Hv as ->; [|done..].
    rewrite (values_at_foreign term args) by done. simpl. lia.
  - right. clear Hnd Hterms.
    induction Hds as [|term d args ds Hd _ IH]; [constructor|].
    rewrite values_at_cons.
    destruct (d !! key) as [v|] eqn:Hv; [|done].
    constructor; [|done].
    apply (structure_sets_at_index_keys _ _ Hd key); [done|].
    intros e ->. apply Hkey. by exists e.
Qed.

(** A sum that sympy builds, whose terms succeed, has the key-wise merge of
    their structures. *)
Corollary structure_Add_canonical (args : list Expr) (ds : list Structure) :
  NoDup args → Forall (λ term, is_Add term = false) args →
  mapM get_contraction_structure args = OK ds →
  ∃ result : Structure,
    get_contraction_structure (Add args) = OK result
    ∧ ∀ key, result !! key = keywise_merge (values_at key ds).
Proof.
  intros Hnd Hterms Hds.
  destruct (merge_all_ok ds (canonical_mergeable _ _ Hnd Hterms Hds))
    as (result & Hrun & Hresult).
  exists result. split; [|done]. simpl. by rewrite (structure_Add_fold _ ds).
Qed.

(** ** Evaluating [get_contraction_structure] step by step *)

Lemma structure_Indexed (base : string) (indices : list Idx)
    (once : gset Idx) (twice : list Idx) :
  _remove_repeated indices = OK (once, twice) →
  get_contraction_structure (Indexed base indices)
  = OK {[ key_or_None twice := VSet {[ Indexed base indices ]} ]}.
Proof. intros Hrun. simpl. by rewrite Hrun. Qed.

Lemma structure_Mul_eq (args : list Expr) (inds : gset Idx) (sym : SymMap)
    (key : list Idx) :
  _get_indices_Mul get_indices args true = OK (inds, sym, Some key) →
  get_contraction_structure (Mul args)
  = match filter (λ f, is_Add f) args with
    | [] => OK {[ key_or_None key := VSet {[ Mul args ]} ]}
    | addfactors =>
        ds ← mapM get_contraction_structure addfactors;
        OK (<[ KExpr (Mul args) := VList ds ]>
              {[ key_or_None key := VSet {[ Mul args ]} ]})
    end.
Proof.
  intros Hmul. simpl. rewrite Hmul. simpl.
  destruct (filter (λ f, is_Add f) args) eqn:Hfilter; [done|].
  by rewrite mapM_filter_spec, Hfilter.
Qed.

Lemma structure_Add_eq (args : list Expr) (ds : list Structure) :
  mapM get_contraction_structure args = OK ds →
  get_contraction_structure (Add args) = foldlM merge_structure ∅ ds.
Proof. intros Hds. simpl. by rewrite (structure_Add_fold _ ds). Qed.

Lemma merge_structure_singleton (result : Structure) (key : Key) (value : Value) :
  merge_structure result {[ key := value ]} = merge_item result (key, value).
Proof.
  unfold merge_structure. rewrite map_to_list_singleton. cbn [foldlM].
  by destruct (merge_item result (key, value)).
Qed.

Lemma merge_structure_empty (d : Structure) : merge_structure ∅ d = OK d.
Proof.
  rewrite merge_structure_ok.
  - f_equal. apply map_eq. intros key.
    rewrite lookup_union_with, lookup_empty. by destruct (d !! key).
  - intros key old new Hold. by rewrite lookup_empty in Hold.
Qed.

(** A key that holds something else than two sets stops the merge. *)
Lemma merge_items_conflict (items : list (Key * Value)) (result : Structure)
    (key : Key) (old new : Value) :
  result !! key = Some old → (key, new) ∈ items →
  ¬ (is_VSet old ∧ is_VSet new) →
  foldlM merge_item result items = Raise TypeError.
Proof.
  intros Hold Hin Hsets. revert result old Hold Hsets.
  induction items as [|[k v] items IH]; intros result old Hold Hsets;
    [by apply elem_of_nil in Hin|].
  simpl. destruct (decide (k = key)) as [->|Hne].
  - rewrite Hold. destruct old as [a|?], v as [b|?]; try done. simpl.
    apply elem_of_cons in Hin as [[= ->]|Hin]; [simpl in Hsets; tauto|].
    apply (IH Hin _ (VSet (a ∪ b))); [by rewrite lookup_insert_eq|].
    simpl in *. tauto.
  - apply elem_of_cons in Hin as [[= ->]|Hin]; [done|].
    destruct (result !! k) as [old'|] eqn:Hold'.
    + destruct old' as [a|?], v as [b|?]; try done. simpl.
      apply (IH Hin _ old); [by rewrite lookup_insert_ne|done].
    + simpl. apply (IH Hin _ old); [by rewrite lookup_insert_ne|done].
Qed.

Lemma merge_structure_conflict (result d : Structure) (key : Key) (old new : Value) :
  result !! key = Some old → d !! key = Some new →
  ¬ (is_VSet old ∧ is_VSet new) →
  merge_structure result d = Raise TypeError.
Proof.
  intros Hold Hnew Hsets. apply (merge_items_conflict _ _ key old new); [done| |done].
  by apply elem_of_map_to_list.
Qed.

(** ** The expressions of the examples *)

Lemma contraction_Mul :
  _get_indices_Mul get_indices [Examples.x ["i"; "k"]; Examples.y ["j"; "k"]] true
  = OK ({[ "i"; "j" ]}, ∅, Some ["k"]).
Proof. vm_compute. reflexivity. Qed.

Lemma outer_product_Mul :
  _get_indices_Mul get_indices [Examples.x ["i"]; Examples.y ["j"]] true
  = OK ({[ "i"; "j" ]}, ∅, Some []).
Proof. vm_compute. reflexivity. Qed.

Lemma inner_product_Mul :
  _get_indices_Mul get_indices [Examples.x ["i"]; Examples.y ["i"]] true
  = OK (∅, ∅, Some ["i"]).
Proof. vm_compute. reflexivity. Qed.

Lemma trace_times_vector_Mul :
  _get_indices_Mul get_indices [Examples.A ["i"; "i"]; Examples.x ["i"]] true
  = OK ({[ "i" ]}, ∅, Some []).
Proof. vm_compute. reflexivity. Qed.

Lemma nested_Mul :
  _get_indices_Mul get_indices
    [Examples.x ["i"]; Add [Examples.y ["i"]; Examples.z ["i"]]] true
  = OK (∅, ∅, Some ["i"]).
Proof. vm_compute. reflexivity. Qed.

Lemma structure_vector (base : string) (i : Idx) :
  get_contraction_structure (Indexed base [i])
  = OK {[ KNone := VSet {[ Indexed base [i] ]} ]}.
Proof.
  destruct (remove_repeated_ok [i] (at_most_twice_single i))
    as (once & twice & Hrun & _ & Htwice & _).
  rewrite (structure_Indexed _ _ once twice) by done.
  destruct twice as [|j twice]; [done|].
  assert (occurrences j [i] = 2) as Hj by (apply Htwice, elem_of_cons; by left).
  rewrite occurrences_cons, occurrences_nil in Hj. case_decide; simpl in Hj; lia.
Qed.

Lemma structure_sum_of_vectors :
  get_contraction_structure (Add [Examples.y ["i"]; Examples.z ["i"]])
  = OK {[ KNone := VSet {[ Examples.y ["i"]; Examples.z ["i"] ]} ]}.
Proof.
  rewrite (structure_Add_eq _
    [ {[ KNone := VSet {[ Examples.y ["i"] ]} ]};
      {[ KNone := VSet {[ Examples.z ["i"] ]} ]} ]).
  2:{ cbn [mapM]. unfold Examples.y, Examples.z. by rewrite !structure_vector. }
  cbn [foldlM]. rewrite merge_structure_empty. cbn [mbind Res_bind].
  rewrite merge_structure_singleton. unfold merge_item.
  rewrite lookup_singleton_eq. cbn [ior mbind Res_bind].
  by rewrite insert_singleton_eq.
Qed.

Lemma structure_nested :
  get_contraction_structure Examples.nested = OK Examples.nested_structure.
Proof.
  unfold Examples.nested at 1. rewrite (structure_Mul_eq _ _ _ _ nested_Mul).
  assert (filter (λ f, is_Add f)
            [Examples.x ["i"]; Add [Examples.y ["i"]; Examples.z ["i"]]]
          = [Add [Examples.y ["i"]; Examples.z ["i"]]]) as -> by reflexivity.
  cbn [mapM]. by rewrite structure_sum_of_vectors.
Qed.

Lemma structure_inner_product :
  get_contraction_structure Examples.inner_product
  = OK {[ KTuple ["i"] := VSet {[ Examples.inner_product ]} ]}.
Proof.
  unfold Examples.inner_product at 1.
  by rewrite (structure_Mul_eq _ _ _ _ inner_product_Mul).
Qed.

Lemma structure_trace :
  get_contraction_structure (Examples.A ["j"; "j"])
  = OK {[ KTuple ["j"] := VSet {[ Examples.A ["j"; "j"] ]} ]}.
Proof.
  unfold Examples.A. by rewrite (structure_Indexed _ _ ∅ ["j"]).
Qed.

Lemma nested_sum_factors :
  mapM get_contraction_structure
    (filter (λ f, is_Add f)
       [Examples.x ["i"]; Add [Examples.y ["i"]; Examples.z ["i"]]])
  = OK [ {[ KNone := VSet {[ Examples.y ["i"]; Examples.z ["i"] ]} ]} ].
Proof.
  assert (filter (λ f, is_Add f)
            [Examples.x ["i"]; Add [Examples.y ["i"]; Examples.z ["i"]]]
          = [Add [Examples.y ["i"]; Examples.z ["i"]]]) as -> by reflexivity.
  cbn [mapM]. by rewrite structure_sum_of_vectors.
Qed.

Lemma xz_product_Mul :
  _get_indices_Mul get_indices [Examples.x ["i"]; Examples.z ["i"]] true
  = OK (∅, ∅, Some ["i"]).
Proof. vm_compute. reflexivity. Qed.

Lemma structure_three_terms :
  mapM get_contraction_structure
    [Examples.inner_product; Mul [Examples.x ["i"]; Examples.z ["i"]];
     Examples.A ["j"; "j"]]
  = OK [ {[ KTuple ["i"] := VSet {[ Examples.inner_product ]} ]};
         {[ KTuple ["i"] := VSet {[ Mul [Examples.x ["i"]; Examples.z ["i"]] ]} ]};
         {[ KTuple ["j"] := VSet {[ Examples.A ["j"; "j"] ]} ]} ].
Proof.
  cbn [mapM]. rewrite structure_inner_product, structure_trace.
  by rewrite (structure_Mul_eq _ _ _ _ xz_product_Mul).
Qed.

Lemma mergeable_three_terms :
  mergeable
    [ {[ KTuple ["i"] := VSet {[ Examples.inner_product ]} ]};
      {[ KTuple ["i"] := VSet {[ Mul [Examples.x ["i"]; Examples.z ["i"]] ]} ]};
      {[ KTuple ["j"] := VSet {[ Examples.A ["j"; "j"] ]} ]} ].
Proof. apply mergeable_check_sound. reflexivity. Qed.

(** ** The symmetry map of a sum *)

(** [reduce(lambda x, y: x!=y or y, syms)] is false exactly when every
    map of [syms] is empty: it is the last map when they are all equal and
    [True] otherwise. *)
Lemma foldl_differs_True (syms : list SymMap) :
  foldl differs_or_second PyTrue (PyDict <$> syms) = PyTrue.
Proof. induction syms as [|s syms IH]; [done|]. by rewrite fmap_cons. Qed.

Lemma foldl_differs_spec (s0 : SymMap) (syms : list SymMap) :
  truth (foldl differs_or_second (PyDict s0) (PyDict <$> syms)) = false
  ↔ s0 = ∅ ∧ Forall (λ s, s = ∅) syms.
Proof.
  revert s0. induction syms as [|s syms IH]; intros s0.
  - simpl. rewrite bool_decide_eq_false. split.
    + intros Hs. split; [|done]. by destruct (decide (s0 = ∅)).
    + intros [-> _]. tauto.
  - rewrite fmap_cons. simpl. destruct (decide (s0 ≠ s)) as [Hne|Heq].
    + rewrite foldl_differs_True. simpl. split; [done|].
      intros [-> Hall]. inversion Hall; subst. done.
    + assert (s0 = s) as -> by (by destruct (decide (s0 = s))).
      rewrite IH. split.
      * intros [-> Hall]. split; [done|]. by constructor.
      * intros [-> Hall]. split; [done|]. by inversion Hall.
Qed.

(** Were the terms of a sum to report one shared map that is not empty,
    the [reduce] would return that map, which is true, and the sum would
    drop it.  No term does: see [get_indices_symmetry_free]. *)
Lemma reduce_shared_symmetry (s : SymMap) (syms : list SymMap) :
  s ≠ ∅ → Forall (λ s', s' = s) syms →
  ∃ r, reduce differs_or_second (PyDict <$> s :: syms) = OK r ∧ truth r = true.
Proof.
  intros Hs Hall. rewrite fmap_cons. eexists. split; [done|].
  apply not_false_is_true. rewrite foldl_differs_spec. by intros [-> _].
Qed.

(** ** The examples of the docstring of [get_indices] *)

Example get_indices_doc_sum :
  get_indices (Add [Examples.x ["i"];
                    Mul [Examples.A ["i"; "j"]; Examples.y ["j"]]])
  = OK ({[ "i" ]}, ∅).
Proof. vm_compute. reflexivity. Qed.

Example get_indices_doc_parenthesis :
  get_indices (Mul [Add [Examples.x ["i"];
                         Mul [Examples.A ["i"; "j"]; Examples.y ["j"]]];
                    Examples.x ["j"]])
  = OK ({[ "i"; "j" ]}, ∅).
Proof. vm_compute. reflexivity. Qed.

(** * The claims *)

(** C7: for every index sequence in which no element occurs three times or
    more, [_remove_repeated] returns a "once" set and a "twice" tuple; the
    union of the once set with the elements of the tuple is the set of the
    elements of the sequence, and the once set is disjoint from the tuple. *)
Theorem remove_repeated_partition (inds : list Idx) :
  at_most_twice inds →
  ∃ (once : gset Idx) (twice : list Idx),
    _remove_repeated inds = OK (once, twice)
    ∧ once ∪ list_to_set twice = list_to_set inds
    ∧ once ## list_to_set twice.
Proof.
  intros Hle.
  destruct (remove_repeated_ok inds Hle) as (once & twice & Hrun & Ho & Ht & _).
  exists once, twice. split; [done|]. split.
  - apply set_eq. intros x.
    rewrite elem_of_union, !elem_of_list_to_set, Ho, Ht, occurrences_pos.
    specialize (Hle x). lia.
  - apply elem_of_disjoint. intros x.
    rewrite elem_of_list_to_set, Ho, Ht. lia.
Qed.

Lemma remove_repeated_partition_witness :
  at_most_twice ["i"; "j"; "i"]
  ∧ ∃ (once : gset Idx) (twice : list Idx),
      _remove_repeated ["i"; "j"; "i"] = OK (once, twice)
      ∧ once ∪ list_to_set twice = list_to_set ["i"; "j"; "i"]
      ∧ once ## list_to_set twice.
Proof.
  split.
  - apply at_most_twice_check. vm_compute. reflexivity.
  - apply (remove_repeated_partition ["i"; "j"; "i"]).
    apply at_most_twice_check. vm_compute. reflexivity.
Defined.

(** C8: for every [Indexed] leaf (without an index occurring three times
    or more, which is the ambiguous-summation failure), [get_indices]
    returns the set of the indices that occur exactly once in its index
    list, with an empty symmetry map; in particular
    [get_indices(A[i,i]) = (set(), {})] for every base [A] and index [i]. *)
Theorem get_indices_Indexed_once (base : string) (indices : list Idx) :
  at_most_twice indices →
  (∃ once : gset Idx,
      get_indices (Indexed base indices) = OK (once, ∅)
      ∧ ∀ x, x ∈ once ↔ occurrences x indices = 1)
  ∧ (∀ (A : string) (i : Idx), get_indices (Indexed A [i; i]) = OK (∅, ∅)).
Proof.
  intros Hle. split.
  - by apply get_indices_Indexed_ok.
  - apply get_indices_trace.
Qed.

Lemma get_indices_Indexed_once_witness :
  at_most_twice ["i"; "j"; "j"]
  ∧ (∃ once : gset Idx,
        get_indices (Indexed "A" ["i"; "j"; "j"]) = OK (once, ∅)
        ∧ ∀ x, x ∈ once ↔ occurrences x ["i"; "j"; "j"] = 1)
  ∧ (∀ (A : string) (i : Idx), get_indices (Indexed A [i; i]) = OK (∅, ∅)).
Proof.
  split.
  - apply at_most_twice_check. vm_compute. reflexivity.
  - apply (get_indices_Indexed_once "A" ["i"; "j"; "j"]).
    apply at_most_twice_check. vm_compute. reflexivity.
Defined.

(** C5, as stated, fails: in [A[i,i]*x[i]] the index [i] has three leaf
    occurrences among the factors of the product, and both analyses return
    a result: the trace is contracted inside its leaf first, which leaves a
    single outer [i]. *)
Lemma ambiguous_scope_counterexample :
  3 ≤ occurrences "i" (scope_occurrences Examples.trace_times_vector)
  ∧ get_indices Examples.trace_times_vector = OK ({[ "i" ]}, ∅)
  ∧ get_contraction_structure Examples.trace_times_vector
    = OK {[ KNone := VSet {[ Examples.trace_times_vector ]} ]}.
Proof.
  split_and!.
  - vm_compute. lia.
  - vm_compute. reflexivity.
  - unfold Examples.trace_times_vector.
    by rewrite (structure_Mul_eq _ _ _ _ trace_times_vector_Mul).
Qed.

(** C5, amended: when an index occurs three times or more in the index
    list of an [Indexed] leaf, or in the concatenation of the outer-index
    sequences that [get_indices] returns for the factors of a product
    (indices already contracted inside a factor are not outer and are not
    counted), [get_indices] and [get_contraction_structure] both fail at
    once on the assertion "Index ... repeated more than twice" and return
    no result. *)
Theorem ambiguous_summation_raises (expr : Expr) :
  ambiguous expr →
  ∃ i, get_indices expr = Raise (AssertionError i)
       ∧ get_contraction_structure expr = Raise (AssertionError i).
Proof.
  destruct 1 as [base indices x Hx|args rs x Hrs Hx].
  - destruct (remove_repeated_raise indices x Hx) as (i & Hrun & _).
    exists i. simpl. by rewrite Hrun.
  - assert (rs ≠ []) as Hne by (intros ->; cbv in Hx; lia).
    destruct (remove_repeated_raise _ x Hx) as (i & Hrun & _).
    exists i. split.
    + by rewrite (get_indices_Mul_eq _ rs), Hrun.
    + simpl. by rewrite (get_indices_Mul_unfold _ _ rs), Hrun.
Qed.

Lemma ambiguous_summation_raises_witness :
  ambiguous Examples.triple
  ∧ ∃ i, get_indices Examples.triple = Raise (AssertionError i)
         ∧ get_contraction_structure Examples.triple = Raise (AssertionError i).
Proof.
  assert (ambiguous Examples.triple) as Hamb.
  { apply (ambiguous_product _ [({["i"]}, ∅); ({["i"]}, ∅); ({["i"]}, ∅)] "i").
    - vm_compute. reflexivity.
    - vm_compute. lia. }
  split; [exact Hamb|].
  apply (ambiguous_summation_raises Examples.triple Hamb).
Defined.

(** C1: for every product whose factors (at least one) each succeed under
    [get_indices], the outer indices that [get_indices] returns are the
    "once" set of [_remove_repeated] run on the concatenation of the
    factors' outer-index sequences, and with [return_dummies] the "twice"
    tuple is returned as the dummy indices; an exception of
    [_remove_repeated] is the outcome of both.  In particular
    [get_indices(x[i,k]*y[j,k]) = (set([i, j]), {})], and with
    [return_dummies] the result carries [(k,)]. *)
Theorem get_indices_Mul_deduplicates (args : list Expr)
    (rs : list (gset Idx * SymMap)) :
  mapM get_indices (as_coeff_terms args).2 = OK rs → rs ≠ [] →
  get_indices (Mul args)
    = ('(once, twice) ← _remove_repeated (outer_sequence rs);
       OK (once, merged_symmetry rs))
  ∧ _get_indices_Mul get_indices args true
    = ('(once, twice) ← _remove_repeated (outer_sequence rs);
       OK (once, merged_symmetry rs, Some twice))
  ∧ get_indices Examples.contraction = OK ({[ "i"; "j" ]}, ∅)
  ∧ _get_indices_Mul get_indices [Examples.x ["i"; "k"]; Examples.y ["j"; "k"]] true
    = OK ({[ "i"; "j" ]}, ∅, Some ["k"]).
Proof.
  intros Hrs Hne. simpl in Hrs. split_and!.
  - by apply get_indices_Mul_eq.
  - by apply (get_indices_Mul_unfold _ true).
  - vm_compute. reflexivity.
  - vm_compute. reflexivity.
Qed.

Lemma get_indices_Mul_deduplicates_witness :
  let args := [Examples.x ["i"; "k"]; Examples.y ["j"; "k"]] in
  let rs : list (gset Idx * SymMap) := [({[ "i"; "k" ]}, ∅); ({[ "j"; "k" ]}, ∅)] in
  mapM get_indices (as_coeff_terms args).2 = OK rs
  ∧ rs ≠ []
  ∧ get_indices (Mul args)
    = ('(once, twice) ← _remove_repeated (outer_sequence rs);
       OK (once, merged_symmetry rs)).
Proof.
  split; [vm_compute; reflexivity|]. split; [discriminate|].
  apply (get_indices_Mul_deduplicates
           [Examples.x ["i"; "k"]; Examples.y ["j"; "k"]]
           [({[ "i"; "k" ]}, ∅); ({[ "j"; "k" ]}, ∅)]).
  - vm_compute. reflexivity.
  - discriminate.
Defined.

(** C2: for every sum whose terms (at least one) each succeed under
    [get_indices]: when every term has an empty outer-index set the sum
    has the empty set and the empty map; otherwise, when the non-scalar
    terms share one outer-index set, that set is returned; and
    [IndexConformanceException], carrying the sum for its message
    "Indices are not consistent: <expr>", is raised exactly when two
    non-scalar terms have unequal outer-index sets.  In particular
    [x[i] + y[j]] with [i ≠ j] raises it. *)
Theorem get_indices_Add_conformance (args : list Expr)
    (rs : list (gset Idx * SymMap)) :
  mapM get_indices args = OK rs → args ≠ [] →
  ((∀ r, r ∈ rs → r.1 = ∅) → get_indices (Add args) = OK (∅, ∅))
  ∧ (∀ shared : gset Idx,
       shared ∈ non_scalars rs →
       (∀ s, s ∈ non_scalars rs → s = shared) →
       get_indices (Add args) = OK (shared, ∅))
  ∧ (get_indices (Add args) = Raise (IndexConformanceException (Add args))
     ↔ ∃ s1 s2, s1 ∈ non_scalars rs ∧ s2 ∈ non_scalars rs ∧ s1 ≠ s2)
  ∧ (∀ (x y : string) (i j : Idx),
       i ≠ j →
       get_indices (Add [Indexed x [i]; Indexed y [j]])
       = Raise (IndexConformanceException (Add [Indexed x [i]; Indexed y [j]]))).
Proof.
  intros Hrs Hargs.
  assert (rs ≠ []) as Hne by (by apply (mapM_OK_nil get_indices args)).
  split_and!.
  - intros Hall. apply (get_indices_Add_scalar _ rs); [done..|].
    destruct (non_scalars rs) as [|s ?] eqn:Hns; [done|].
    assert (s ∈ non_scalars rs) as Hs by (rewrite Hns; apply elem_of_cons; by left).
    apply non_scalars_elem in Hs as [Hs ([inds sym] & -> & Hin)%list_elem_of_fmap].
    by apply Hall in Hin.
  - intros shared Hin Hall.
    destruct (non_scalars rs) as [|first others] eqn:Hns.
    { by apply elem_of_nil in Hin. }
    assert (first = shared) as -> by (apply Hall, elem_of_cons; by left).
    by apply (get_indices_Add_conforming _ rs shared others).
  - destruct (non_scalars rs) as [|first others] eqn:Hns.
    { rewrite (get_indices_Add_scalar _ rs) by done. split; [done|].
      by intros (s1 & _ & []%elem_of_nil & _). }
    destruct (decide (Forall (λ s, s = first) (first :: others))) as [Hall|Hall];
      rewrite Forall_forall in Hall.
    + rewrite (get_indices_Add_conforming _ rs first others) by done.
      split; [done|]. intros (s1 & s2 & ->%Hall & ->%Hall & Hneq). done.
    + rewrite (get_indices_Add_nonconforming _ rs first others) by done.
      split; [intros _|done].
      destruct (decide (Exists (λ s, s ≠ first) (first :: others)))
        as [(s & Hs & Hneq)%Exists_exists|Hex].
      * exists s, first. split_and!; [done| |done]. apply elem_of_cons; by left.
      * destruct Hall. intros s Hs.
        destruct (decide (s = first)) as [|Hneq]; [done|].
        destruct Hex. apply Exists_exists. eauto.
  - intros x y i j. apply get_indices_nonconformant_pair.
Qed.

Lemma get_indices_Add_conformance_witness :
  let args := [Examples.x ["i"]; Mul [Examples.y ["i"]; Examples.z ["j"]]] in
  let rs : list (gset Idx * SymMap) := [({[ "i" ]}, ∅); ({[ "i"; "j" ]}, ∅)] in
  mapM get_indices args = OK rs
  ∧ args ≠ []
  ∧ (get_indices (Add args) = Raise (IndexConformanceException (Add args))
     ↔ ∃ s1 s2, s1 ∈ non_scalars rs ∧ s2 ∈ non_scalars rs ∧ s1 ≠ s2).
Proof.
  split; [vm_compute; reflexivity|]. split; [discriminate|].
  apply (get_indices_Add_conformance
           [Examples.x ["i"]; Mul [Examples.y ["i"]; Examples.z ["j"]]]
           [({[ "i" ]}, ∅); ({[ "i"; "j" ]}, ∅)]).
  - vm_compute. reflexivity.
  - discriminate.
Defined.

(** ** Products in the contraction structure *)

Lemma Add_factor_filter (args : list Expr) :
  (∃ f, f ∈ args ∧ is_Add f) ↔ filter (λ f, is_Add f) args ≠ [].
Proof.
  split.
  - intros (f & Hin & Hf) Hnil.
    assert (f ∈ filter (λ f, is_Add f) args) as Hf'
      by (by apply list_elem_of_filter).
    rewrite Hnil in Hf'. by apply elem_of_nil in Hf'.
  - destruct (filter (λ f, is_Add f) args) as [|f l] eqn:Hfilter; [done|].
    intros _. exists f.
    assert (f ∈ filter (λ f, is_Add f) args) as Hf
      by (rewrite Hfilter; apply elem_of_cons; by left).
    apply list_elem_of_filter in Hf as [? ?]. done.
Qed.

(** C3: for every product on which the [return_dummies] product rule
    succeeds with the dummy tuple [key], [get_contraction_structure]
    returns the entry [{key or None: set([expr])}], and, exactly when some
    factor is a sum, one more entry whose key is the product itself and
    whose value is the list of the contraction structures of its sum
    factors, in order.  In particular
    [get_contraction_structure(x[i]*y[j]) = {None: set([x[i]*y[j]])}]. *)
Theorem structure_Mul (args : list Expr) (inds : gset Idx) (sym : SymMap)
    (key : list Idx) (ds : list Structure) :
  _get_indices_Mul get_indices args true = OK (inds, sym, Some key) →
  mapM get_contraction_structure (filter (λ f, is_Add f) args) = OK ds →
  let expr := Mul args in
  let entry : Structure := {[ key_or_None key := VSet {[ expr ]} ]} in
  ((∃ f, f ∈ args ∧ is_Add f) →
     get_contraction_structure expr = OK (<[ KExpr expr := VList ds ]> entry)
     ∧ (<[ KExpr expr := VList ds ]> entry) !! key_or_None key
       = Some (VSet {[ expr ]}))
  ∧ (¬ (∃ f, f ∈ args ∧ is_Add f) →
     get_contraction_structure expr = OK entry)
  ∧ get_contraction_structure Examples.outer_product
    = OK {[ KNone := VSet {[ Examples.outer_product ]} ]}.
Proof.
  intros Hmul Hds expr entry. split_and!.
  - intros Hsum%Add_factor_filter. split.
    + simpl. rewrite Hmul. simpl.
      destruct (filter (λ f, is_Add f) args) eqn:Hfilter; [done|].
      by rewrite mapM_filter_spec, Hfilter, Hds.
    + rewrite lookup_insert_ne; [apply lookup_singleton_eq|].
      by destruct key.
  - intros Hsum. rewrite Add_factor_filter in Hsum.
    simpl. rewrite Hmul. simpl.
    destruct (filter (λ f, is_Add f) args); [done|]. by destruct Hsum.
  - unfold Examples.outer_product.
    by rewrite (structure_Mul_eq _ _ _ _ outer_product_Mul).
Qed.

Lemma structure_Mul_witness :
  let args := [Examples.x ["i"]; Add [Examples.y ["i"]; Examples.z ["i"]]] in
  let ds : list Structure :=
    [ {[ KNone := VSet {[ Examples.y ["i"]; Examples.z ["i"] ]} ]} ] in
  let entry : Structure := {[ KTuple ["i"] := VSet {[ Mul args ]} ]} in
  _get_indices_Mul get_indices args true = OK (∅, ∅, Some ["i"])
  ∧ mapM get_contraction_structure (filter (λ f, is_Add f) args) = OK ds
  ∧ ((∃ f, f ∈ args ∧ is_Add f) →
       get_contraction_structure (Mul args)
       = OK (<[ KExpr (Mul args) := VList ds ]> entry)
       ∧ (<[ KExpr (Mul args) := VList ds ]> entry) !! KTuple ["i"]
         = Some (VSet {[ Mul args ]})).
Proof.
  split; [exact nested_Mul|]. split; [exact nested_sum_factors|].
  apply (structure_Mul
           [Examples.x ["i"]; Add [Examples.y ["i"]; Examples.z ["i"]]]
           ∅ ∅ ["i"]
           [ {[ KNone := VSet {[ Examples.y ["i"]; Examples.z ["i"] ]} ]} ]).
  - exact nested_Mul.
  - exact nested_sum_factors.
Defined.

(** ** Sums in the contraction structure *)

(** C4, as stated, fails: each term of the (unevaluated) sum
    [x[i]*(y[i] + z[i]) + x[i]*(y[i] + z[i])] succeeds, and the sum raises
    [TypeError]: the product is a key of both structures, its values are
    lists, and [|=] is not defined on lists. *)
Lemma structure_Add_counterexample :
  mapM get_contraction_structure [Examples.nested; Examples.nested]
  = OK [Examples.nested_structure; Examples.nested_structure]
  ∧ get_contraction_structure Examples.nested_twice = Raise TypeError.
Proof.
  assert (mapM get_contraction_structure [Examples.nested; Examples.nested]
          = OK [Examples.nested_structure; Examples.nested_structure]) as Hterms.
  { cbn [mapM]. by rewrite structure_nested. }
  split; [done|].
  unfold Examples.nested_twice. rewrite (structure_Add_eq _ _ Hterms).
  cbn [foldlM]. rewrite merge_structure_empty. cbn [mbind Res_bind].
  rewrite (merge_structure_conflict _ _ (KExpr Examples.nested)
             (VList [ {[ KNone := VSet {[ Examples.y ["i"]; Examples.z ["i"] ]} ]} ])
             (VList [ {[ KNone := VSet {[ Examples.y ["i"]; Examples.z ["i"] ]} ]} ]));
    [done|apply lookup_insert_eq..|simpl; tauto].
Qed.

(** C4, amended: for every sum whose terms each succeed under
    [get_contraction_structure], and in which no key that holds a list of
    nested structures (a product with sum factors) occurs in the structures
    of two terms, the structure returned for the sum is the key-wise merge
    of the structures of the terms: a key of no term is absent, a key of
    one term keeps its value, and a key of several terms holds the union of
    its value sets.  In particular [get_contraction_structure(x[i]*y[i] +
    A[j,j]) = {(i,): set([x[i]*y[i]]), (j,): set([A[j,j]])}]. *)
Theorem structure_Add_union (args : list Expr) (ds : list Structure) :
  mapM get_contraction_structure args = OK ds → mergeable ds →
  (∃ result : Structure,
      get_contraction_structure (Add args) = OK result
      ∧ ∀ key, result !! key = keywise_merge (values_at key ds))
  ∧ get_contraction_structure Examples.inner_plus_trace
    = OK (<[ KTuple ["j"] := VSet {[ Examples.A ["j"; "j"] ]} ]>
            {[ KTuple ["i"] := VSet {[ Examples.inner_product ]} ]}).
Proof.
  intros Hds Hm. split.
  - destruct (merge_all_ok ds Hm) as (result & Hrun & Hresult).
    exists result. split; [|done].
    simpl. by rewrite (structure_Add_fold _ ds).
  - unfold Examples.inner_plus_trace.
    rewrite (structure_Add_eq _
      [ {[ KTuple ["i"] := VSet {[ Examples.inner_product ]} ]};
        {[ KTuple ["j"] := VSet {[ Examples.A ["j"; "j"] ]} ]} ]).
    2:{ cbn [mapM]. by rewrite structure_inner_product, structure_trace. }
    cbn [foldlM]. rewrite merge_structure_empty. cbn [mbind Res_bind].
    rewrite merge_structure_singleton. unfold merge_item.
    by rewrite lookup_singleton_ne.
Qed.

Lemma structure_Add_union_witness :
  let args := [Examples.inner_product; Mul [Examples.x ["i"]; Examples.z ["i"]];
               Examples.A ["j"; "j"]] in
  let ds : list Structure :=
    [ {[ KTuple ["i"] := VSet {[ Examples.inner_product ]} ]};
      {[ KTuple ["i"] := VSet {[ Mul [Examples.x ["i"]; Examples.z ["i"]] ]} ]};
      {[ KTuple ["j"] := VSet {[ Examples.A ["j"; "j"] ]} ]} ] in
  mapM get_contraction_structure args = OK ds
  ∧ mergeable ds
  ∧ ∃ result : Structure,
      get_contraction_structure (Add args) = OK result
      ∧ ∀ key, result !! key = keywise_merge (values_at key ds).
Proof.
  split; [exact structure_three_terms|].
  split; [exact mergeable_three_terms|].
  apply (structure_Add_union
           [Examples.inner_product; Mul [Examples.x ["i"]; Examples.z ["i"]];
            Examples.A ["j"; "j"]]
           [ {[ KTuple ["i"] := VSet {[ Examples.inner_product ]} ]};
             {[ KTuple ["i"] := VSet {[ Mul [Examples.x ["i"]; Examples.z ["i"]] ]} ]};
             {[ KTuple ["j"] := VSet {[ Examples.A ["j"; "j"] ]} ]} ]).
  - exact structure_three_terms.
  - exact mergeable_three_terms.
Defined.






(** C9: for every node that is neither an [Indexed] leaf, an atom, a sum
    nor a product: when it contains no [Indexed] leaf, [get_indices]
    returns [(set(), {})] and [get_contraction_structure] returns
    [{None: set([expr])}]; when it contains one, both raise
    [NotImplementedError] and neither returns a default result. *)
Theorem unsupported_node (ty : string) (args : list Expr) :
  get_indices (Other ty args)
  = (if has_Indexed (Other ty args) then Raise (NotImplementedError ty)
     else OK (∅, ∅))
  ∧ get_contraction_structure (Other ty args)
    = (if has_Indexed (Other ty args) then Raise (NotImplementedError ty)
       else OK {[ KNone := VSet {[ Other ty args ]} ]}).
Proof. simpl. by destruct (existsb has_Indexed args). Qed.

(** C10: whenever [get_indices] returns, for an expression or for [None],
    the symmetry map it returns is empty. *)
Theorem get_indices_symmetry_empty (expr : option Expr)
    (inds : gset Idx) (sym : SymMap) :
  get_indices_or_None expr = OK (inds, sym) → sym = ∅.
Proof.
  destruct expr as [expr|]; simpl.
  - apply get_indices_symmetry_free.
  - by intros [= _ <-].
Qed.

Lemma get_indices_symmetry_empty_witness :
  get_indices_or_None (Some Examples.contraction) = OK ({[ "i"; "j" ]}, ∅)
  ∧ (∅ : SymMap) = ∅.
Proof.
  assert (get_indices_or_None (Some Examples.contraction)
          = OK ({[ "i"; "j" ]}, ∅)) as Hget by (vm_compute; reflexivity).
  split; [exact Hget|].
  apply (get_indices_symmetry_empty _ _ _ Hget).
Defined.

(** * Further properties of the code *)

(** ** The deduplicator *)

Lemma count_loop_first_third (inds : list Idx) :
  (∃ m, foldlM count_index empty_dict inds = OK m)
  ∨ (∃ i pre post,
        inds = pre ++ i :: post ∧ at_most_twice pre ∧ occurrences i pre = 2
        ∧ foldlM count_index empty_dict inds = Raise (AssertionError i)).
Proof.
  induction inds as [|y inds IH] using rev_ind; [left; by exists empty_dict|].
  rewrite foldlM_app.
  destruct IH as [[m Hm]|(i & pre & post & -> & Hpre & Hi & Hrun)].
  2:{ right. exists i, pre, (post ++ [y]).
      rewrite Hrun. by rewrite <- app_assoc. }
  destruct (count_loop_spec inds) as [(m' & Hm' & Hcounts & Hle)|(i & Hi & _)];
    [|congruence].
  rewrite Hm'. simpl. unfold count_index. rewrite (Hcounts y).
  pose proof (Hle y) as Hy.
  destruct (occurrences y inds) as [|[|[|n]]] eqn:Hocc; simpl; [eauto..| |lia].
  right. exists y, inds, []. done.
Qed.

(** X1: [_remove_repeated] either returns, and then no element occurs
    three times, or fails on its assertion, and then the index it names is
    the one whose third occurrence comes first in the sequence. *)
Theorem remove_repeated_outcome (inds : list Idx) :
  (at_most_twice inds
   ∧ ∃ once twice, _remove_repeated inds = OK (once, twice))
  ∨ (∃ i pre post,
        inds = pre ++ i :: post ∧ at_most_twice pre ∧ occurrences i pre = 2
        ∧ _remove_repeated inds = Raise (AssertionError i)).
Proof.
  destruct (count_loop_first_third inds)
    as [[m Hm]|(i & pre & post & Hinds & Hpre & Hi & Hrun)].
  - left. destruct (count_loop_spec inds) as [(m' & _ & _ & Hle)|(i & Hi & _)];
      [|congruence].
    split; [done|]. unfold _remove_repeated. rewrite Hm. simpl. eauto.
  - right. exists i, pre, post. split_and!; [done..|].
    unfold _remove_repeated. by rewrite Hrun.
Qed.

Lemma remove_repeated_OK_inv (inds : list Idx) (once : gset Idx) (twice : list Idx) :
  _remove_repeated inds = OK (once, twice) →
  ∃ m, dict_wf m ∧ counts_of (entries m) inds ∧ at_most_twice inds
       ∧ once = list_to_set (filter (λ x, entries m !!! x = 0) inds)
       ∧ twice = repeated_keys m.
Proof.
  unfold _remove_repeated. intros Hrun.
  destruct (count_loop_spec inds) as [(m & Hm & Hcounts & Hle)|(i & Hi & _)].
  - rewrite Hm in Hrun. simpl in Hrun. exists m.
    split; [by apply (count_loop_wf inds empty_dict m empty_dict_wf)|].
    by simplify_eq.
  - by rewrite Hi in Hrun.
Qed.

(** X2: when [_remove_repeated] returns, the set holds exactly the elements
    that occur once, the tuple holds exactly the elements that occur twice,
    each of them once, and every element of the sequence is in one of the
    two. *)
Theorem remove_repeated_exact (inds : list Idx) (once : gset Idx) (twice : list Idx) :
  _remove_repeated inds = OK (once, twice) →
  (∀ x, x ∈ once ↔ occurrences x inds = 1)
  ∧ (∀ x, x ∈ twice ↔ occurrences x inds = 2)
  ∧ NoDup twice
  ∧ (∀ x, x ∈ inds → x ∈ once ∨ x ∈ twice).
Proof.
  intros (m & Hwf & Hcounts & Hle & -> & ->)%remove_repeated_OK_inv.
  assert (∀ x, x ∈ repeated_keys m ↔ occurrences x inds = 2) as Htwice
    by (intros x; by apply elem_of_repeated_keys).
  split_and!; [|done| |].
  - intros x. by apply elem_of_once.
  - by apply NoDup_repeated_keys.
  - intros x Hx%occurrences_pos. rewrite elem_of_once, Htwice by done.
    specialize (Hle x). lia.
Qed.

Lemma remove_repeated_exact_witness :
  _remove_repeated ["i"; "j"; "i"; "k"] = OK ({[ "j"; "k" ]}, ["i"])
  ∧ NoDup ["i"].
Proof.
  assert (_remove_repeated ["i"; "j"; "i"; "k"] = OK ({[ "j"; "k" ]}, ["i"]))
    as Hrun by (vm_compute; reflexivity).
  split; [exact Hrun|].
  apply (remove_repeated_exact _ _ _ Hrun).
Defined.

Lemma occurrences_Permutation (x : Idx) (l1 l2 : list Idx) :
  l1 ≡ₚ l2 → occurrences x l1 = occurrences x l2.
Proof. intros Hperm. unfold occurrences. by rewrite Hperm. Qed.

(** The tuple follows the order in which the indices enter the dict. *)
Example remove_repeated_order :
  _remove_repeated ["i"; "i"; "j"; "j"] = OK (∅, ["i"; "j"])
  ∧ _remove_repeated ["j"; "j"; "i"; "i"] = OK (∅, ["j"; "i"]).
Proof. split; vm_compute; reflexivity. Qed.

(** On two sequences with the same number of occurrences of every index,
    [_remove_repeated] returns the same set, and tuples that hold the same
    indices. *)
Lemma remove_repeated_same_counts (inds inds' : list Idx)
    (once : gset Idx) (twice : list Idx) :
  (∀ x, occurrences x inds = occurrences x inds') →
  _remove_repeated inds = OK (once, twice) →
  ∃ twice', _remove_repeated inds' = OK (once, twice') ∧ twice ≡ₚ twice'.
Proof.
  intros Hocc (m & Hwf & Hcounts & Hle & -> & ->)%remove_repeated_OK_inv.
  assert (at_most_twice inds') as Hle'.
  { intros x. rewrite <- Hocc. apply Hle. }
  destruct (count_loop_ok inds' Hle') as (m' & Hm' & Hcounts' & Hwf').
  exists (repeated_keys m'). split.
  - unfold _remove_repeated. rewrite Hm'. simpl. do 2 f_equal.
    apply set_eq. intros x. by rewrite !elem_of_once, Hocc.
  - apply NoDup_Permutation; [by apply NoDup_repeated_keys..|].
    intros x. by rewrite !elem_of_repeated_keys, Hocc.
Qed.

(** X3: the order of the sequence matters to [_remove_repeated] only for
    the order of the tuple: when it returns on a sequence, it returns on
    every permutation of it, with the same set and with a tuple of the
    same indices. *)
Theorem remove_repeated_Permutation (inds inds' : list Idx)
    (once : gset Idx) (twice : list Idx) :
  inds ≡ₚ inds' →
  _remove_repeated inds = OK (once, twice) →
  ∃ twice', _remove_repeated inds' = OK (once, twice') ∧ twice ≡ₚ twice'.
Proof.
  intros Hperm. apply remove_repeated_same_counts.
  intros x. by apply occurrences_Permutation.
Qed.

Lemma remove_repeated_Permutation_witness :
  ["i"; "i"; "j"; "j"] ≡ₚ ["j"; "j"; "i"; "i"]
  ∧ _remove_repeated ["i"; "i"; "j"; "j"] = OK (∅, ["i"; "j"])
  ∧ ∃ twice', _remove_repeated ["j"; "j"; "i"; "i"] = OK (∅, twice')
              ∧ ["i"; "j"] ≡ₚ twice'.
Proof.
  assert (["i"; "i"; "j"; "j"] ≡ₚ ["j"; "j"; "i"; "i"]) as Hperm.
  { apply (bool_decide_unpack _). vm_compute. exact I. }
  assert (_remove_repeated ["i"; "i"; "j"; "j"] = OK (∅, ["i"; "j"]))
    as Hrun by (vm_compute; reflexivity).
  split; [exact Hperm|]. split; [exact Hrun|].
  apply (remove_repeated_Permutation _ _ _ _ Hperm Hrun).
Defined.

(** ** Products *)


Lemma occurrences_NoDup (x : Idx) (l : list Idx) :
  NoDup l → occurrences x l = if decide (x ∈ l) then 1 else 0.
Proof.
  induction 1 as [|y l Hy _ IH]; [done|].
  rewrite occurrences_cons, IH.
  destruct (decide (y = x)) as [->|Hne].
  - rewrite decide_False by done. rewrite decide_True; [done|]. by left.
  - destruct (decide (x ∈ l)) as [Hin|Hnin].
    + rewrite decide_True; [done|]. by right.
    + rewrite decide_False; [done|]. by intros [->|?]%elem_of_cons.
Qed.

Lemma occurrences_elements (x : Idx) (s : gset Idx) :
  occurrences x (elements s) = if decide (x ∈ s) then 1 else 0.
Proof.
  rewrite occurrences_NoDup by apply NoDup_elements.
  destruct (decide (x ∈ s)) as [Hin|Hnin].
  - rewrite decide_True; [done|]. by apply elem_of_elements.
  - rewrite decide_False; [done|]. by rewrite elem_of_elements.
Qed.

Lemma occurrences_outer_sequence (x : Idx) (rs : list (gset Idx * SymMap)) :
  occurrences x (outer_sequence rs) = outer_count x rs.
Proof.
  unfold outer_sequence, outer_count.
  induction rs as [|[s sym] rs IH]; [done|].
  rewrite !fmap_cons, filter_cons. simpl.
  rewrite occurrences_app, occurrences_elements, IH.
  by destruct (decide (x ∈ s)).
Qed.

Lemma mapM_get_indices_symmetry (l : list Expr) (rs : list (gset Idx * SymMap)) :
  mapM get_indices l = OK rs → merged_symmetry rs = ∅.
Proof.
  intros Hrs. apply merged_symmetry_empty.
  apply (mapM_symmetry_free l); [|done].
  apply Forall_forall. intros. apply get_indices_symmetry_free.
Qed.

(** X4: the product rule in terms of the factors.  When no index is outer
    in three factors or more, the outer indices of the product are the
    indices that are outer in exactly one factor, and the dummy tuple holds
    the indices that are outer in exactly two; when some index is outer in
    three factors or more, both variants fail on the assertion, naming such
    an index. *)
Theorem product_rule_by_factors (args : list Expr) (rs : list (gset Idx * SymMap)) :
  mapM get_indices (as_coeff_terms args).2 = OK rs → rs ≠ [] →
  ((∀ x, outer_count x rs ≤ 2) →
     ∃ once twice,
       get_indices (Mul args) = OK (once, ∅)
       ∧ _get_indices_Mul get_indices args true = OK (once, ∅, Some twice)
       ∧ (∀ x, x ∈ once ↔ outer_count x rs = 1)
       ∧ (∀ x, x ∈ twice ↔ outer_count x rs = 2)
       ∧ NoDup twice)
  ∧ ((∃ x, 3 ≤ outer_count x rs) →
     ∃ i, 3 ≤ outer_count i rs
          ∧ get_indices (Mul args) = Raise (AssertionError i)
          ∧ _get_indices_Mul get_indices args true = Raise (AssertionError i)).
Proof.
  intros Hrs Hne. simpl in Hrs.
  rewrite (get_indices_Mul_eq _ rs), (get_indices_Mul_unfold _ _ rs) by done.
  rewrite (mapM_get_indices_symmetry _ _ Hrs). split.
  - intros Hle.
    destruct (remove_repeated_ok (outer_sequence rs))
      as (once & twice & -> & Honce & Htwice & Hnd).
    { intros x. rewrite occurrences_outer_sequence. apply Hle. }
    exists once, twice. split_and!; [done..| | |done].
    + intros x. by rewrite Honce, occurrences_outer_sequence.
    + intros x. by rewrite Htwice, occurrences_outer_sequence.
  - intros [x Hx].
    destruct (remove_repeated_raise (outer_sequence rs) x) as (i & -> & Hi).
    { by rewrite occurrences_outer_sequence. }
    exists i. by rewrite <- occurrences_outer_sequence.
Qed.

Lemma product_rule_by_factors_witness :
  let args := [Examples.x ["i"; "k"]; Examples.y ["j"; "k"]] in
  let rs : list (gset Idx * SymMap) := [({[ "i"; "k" ]}, ∅); ({[ "j"; "k" ]}, ∅)] in
  mapM get_indices (as_coeff_terms args).2 = OK rs
  ∧ rs ≠ []
  ∧ ((∀ x, outer_count x rs ≤ 2) →
     ∃ once twice,
       get_indices (Mul args) = OK (once, ∅)
       ∧ _get_indices_Mul get_indices args true = OK (once, ∅, Some twice)
       ∧ (∀ x, x ∈ once ↔ outer_count x rs = 1)
       ∧ (∀ x, x ∈ twice ↔ outer_count x rs = 2)
       ∧ NoDup twice).
Proof.
  split; [vm_compute; reflexivity|]. split; [discriminate|].
  apply (product_rule_by_factors
           [Examples.x ["i"; "k"]; Examples.y ["j"; "k"]]
           [({[ "i"; "k" ]}, ∅); ({[ "j"; "k" ]}, ∅)]).
  - vm_compute. reflexivity.
  - discriminate.
Defined.

(** ** The two analyses side by side *)

Lemma get_indices_Mul_flag (args : list Expr) (err : PyError) :
  _get_indices_Mul get_indices args false = Raise err →
  _get_indices_Mul get_indices args true = Raise err.
Proof.
  unfold _get_indices_Mul. simpl.
  destruct (mapM get_indices (Mul_terms args)) as [rs|e]; simpl; [|done].
  destruct (zip_star rs) as [[inds syms]|e]; simpl; [|done].
  destruct (reduce app (elements <$> inds)) as [seq|e]; simpl; [|done].
  by destruct (_remove_repeated seq) as [[once twice]|e].
Qed.

(** X5: on an expression that is not a sum, an exception of [get_indices]
    is also the outcome of [get_contraction_structure]: the structure
    builder accepts no leaf, product or other node that the index resolver
    rejects. *)
Theorem structure_fails_with_indices (expr : Expr) (err : PyError) :
  is_Add expr = false →
  get_indices expr = Raise err →
  get_contraction_structure expr = Raise err.
Proof.
  intros Hsum Hget.
  destruct expr as [base indices|n|name|args|args|ty args]; simpl in *;
    try done.
  - by destruct (_remove_repeated indices) as [[once twice]|e]; simplify_eq/=.
  - destruct (_get_indices_Mul get_indices args false) as [[[inds sym] o]|e] eqn:Hmul;
      simplify_eq/=.
    by rewrite (get_indices_Mul_flag _ _ Hmul).
  - destruct (negb (existsb has_Indexed args)); by simplify_eq.
Qed.

Lemma structure_fails_with_indices_witness :
  is_Add Examples.triple = false
  ∧ get_indices Examples.triple = Raise (AssertionError "i")
  ∧ get_contraction_structure Examples.triple = Raise (AssertionError "i").
Proof.
  assert (get_indices Examples.triple = Raise (AssertionError "i")) as Hget
    by (vm_compute; reflexivity).
  split; [reflexivity|]. split; [exact Hget|].
  apply (structure_fails_with_indices Examples.triple _ eq_refl Hget).
Defined.

Lemma structure_leaf_singleton (base : string) (indices : list Idx) :
  at_most_twice indices →
  ∃ key, get_contraction_structure (Indexed base indices)
         = OK {[ key := VSet {[ Indexed base indices ]} ]}.
Proof.
  intros (once & twice & Hrun & _)%remove_repeated_ok.
  exists (key_or_None twice). by apply (structure_Indexed _ _ once).
Qed.

Lemma values_at_sets (key : Key) (ds : list Structure) :
  Forall (λ d : Structure, ∃ k s, d = {[ k := VSet s ]}) ds →
  Forall is_VSet (values_at key ds).
Proof.
  induction 1 as [|d ds (k & s & ->) _ IH]; [constructor|].
  rewrite values_at_cons.
  destruct (decide (k = key)) as [->|Hne].
  - rewrite lookup_singleton_eq. by constructor.
  - by rewrite lookup_singleton_ne.
Qed.

(** X6: [get_contraction_structure] makes no conformance check.  On a sum
    whose terms are [Indexed] leaves without a third occurrence of an index
    it always returns, whatever the outer indices of the terms are; on
    [x[i] + y[j]] with [i ≠ j], which [get_indices] rejects, it returns
    [{None: set([x[i], y[j]])}]. *)
Theorem structure_of_leaf_sum (args : list Expr) :
  Forall (λ term, ∃ base indices,
            term = Indexed base indices ∧ at_most_twice indices) args →
  (∃ result, get_contraction_structure (Add args) = OK result)
  ∧ (∀ (x y : string) (i j : Idx),
       i ≠ j →
       get_indices (Add [Indexed x [i]; Indexed y [j]])
       = Raise (IndexConformanceException (Add [Indexed x [i]; Indexed y [j]]))
       ∧ get_contraction_structure (Add [Indexed x [i]; Indexed y [j]])
         = OK {[ KNone := VSet {[ Indexed x [i]; Indexed y [j] ]} ]}).
Proof.
  intros Hleaves. split.
  - assert (∃ ds, mapM get_contraction_structure args = OK ds
                  ∧ Forall (λ d : Structure, ∃ k s, d = {[ k := VSet s ]}) ds)
      as (ds & Hds & Hsets).
    { induction Hleaves as [|term args (base & indices & -> & Hle) _ IH].
      - by exists [].
      - destruct IH as (ds & Hds & Hsets).
        destruct (structure_leaf_singleton base indices Hle) as [key Hkey].
        eexists (_ :: ds). cbn [mapM]. rewrite Hkey, Hds. split; [done|].
        constructor; [eauto|done]. }
    destruct (merge_all_ok ds) as (result & Hrun & _).
    { intros key. right. by apply values_at_sets. }
    exists result. by rewrite (structure_Add_eq _ ds).
  - intros x y i j Hij. split; [by apply get_indices_nonconformant_pair|].
    rewrite (structure_Add_eq _
      [ {[ KNone := VSet {[ Indexed x [i] ]} ]};
        {[ KNone := VSet {[ Indexed y [j] ]} ]} ]).
    2:{ cbn [mapM]. by rewrite !structure_vector. }
    cbn [foldlM]. rewrite merge_structure_empty. cbn [mbind Res_bind].
    rewrite merge_structure_singleton. unfold merge_item.
    rewrite lookup_singleton_eq. cbn [ior mbind Res_bind].
    by rewrite insert_singleton_eq.
Qed.

Lemma structure_of_leaf_sum_witness :
  Forall (λ term, ∃ base indices,
            term = Indexed base indices ∧ at_most_twice indices)
         [Examples.x ["i"]; Examples.A ["j"; "j"]]
  ∧ ∃ result,
      get_contraction_structure (Add [Examples.x ["i"]; Examples.A ["j"; "j"]])
      = OK result.
Proof.
  assert (Forall (λ term, ∃ base indices,
                    term = Indexed base indices ∧ at_most_twice indices)
                 [Examples.x ["i"]; Examples.A ["j"; "j"]]) as Hleaves.
  { repeat constructor.
    - exists "x", ["i"]. split; [reflexivity|]. apply at_most_twice_single.
    - exists "A", ["j"; "j"]. split; [reflexivity|]. apply at_most_twice_pair. }
  split; [exact Hleaves|].
  apply (structure_of_leaf_sum _ Hleaves).
Defined.

(** ** The shape of a contraction structure *)


Lemma merge_items_preserves (P : Key → Value → Prop)
    (items : list (Key * Value)) (result r : Structure) :
  (∀ key a b, P key (VSet a) → P key (VSet b) → P key (VSet (a ∪ b))) →
  foldlM merge_item result items = OK r →
  (∀ key v, result !! key = Some v → P key v) →
  (∀ key v, (key, v) ∈ items → P key v) →
  ∀ key v, r !! key = Some v → P key v.
Proof.
  intros Hunion. revert result.
  induction items as [|[k0 v0] items IH]; intros result Hrun Hresult Hitems.
  - simpl in Hrun. by simplify_eq.
  - simpl in Hrun. apply bind_OK in Hrun as (result' & Hitem & Hrun).
    apply (IH result'); [done| |].
    2:{ intros key v Hin. apply Hitems. by apply elem_of_cons; right. }
    assert (P k0 v0) as Hv0 by (apply Hitems, elem_of_cons; by left).
    intros key v Hv. destruct (result !! k0) as [old|] eqn:Hold.
    + destruct old as [a|?], v0 as [b|?]; simplify_eq/=.
      apply lookup_insert_Some in Hv as [[<- <-]|[_ Hv]]; [|by apply Hresult].
      apply Hunion; [by apply Hresult|done].
    + simplify_eq/=.
      apply lookup_insert_Some in Hv as [[<- <-]|[_ Hv]]; [done|by apply Hresult].
Qed.

Lemma merge_structure_preserves (P : Key → Value → Prop) (result d r : Structure) :
  (∀ key a b, P key (VSet a) → P key (VSet b) → P key (VSet (a ∪ b))) →
  merge_structure result d = OK r →
  (∀ key v, result !! key = Some v → P key v) →
  (∀ key v, d !! key = Some v → P key v) →
  ∀ key v, r !! key = Some v → P key v.
Proof.
  intros Hunion Hrun Hresult Hd.
  apply (merge_items_preserves P (map_to_list d) result); [done..|].
  intros key v Hin%elem_of_map_to_list. by apply Hd.
Qed.

(** The loop of the [Add] branch keeps what holds of the structures of the
    terms and is kept by the union of two sets. *)
Lemma structure_Add_preserves (P : Key → Value → Prop) (args : list Expr)
    (acc r : Structure) :
  (∀ key a b, P key (VSet a) → P key (VSet b) → P key (VSet (a ∪ b))) →
  Forall (λ term, ∀ d, get_contraction_structure term = OK d →
                       ∀ key v, d !! key = Some v → P key v) args →
  (∀ key v, acc !! key = Some v → P key v) →
  foldlM (λ result term,
            d ← get_contraction_structure term;
            merge_structure result d) acc args = OK r →
  ∀ key v, r !! key = Some v → P key v.
Proof.
  intros Hunion Hargs. revert acc.
  induction Hargs as [|term args Hterm _ IH]; intros acc Hacc Hrun; simpl in Hrun.
  - by simplify_eq.
  - apply bind_OK in Hrun as (acc' & Hstep & Hrun).
    apply bind_OK in Hstep as (d & Hd & Hmerge).
    apply (IH acc'); [|done].
    apply (merge_structure_preserves P acc d); [done..|]. by apply Hterm.
Qed.

Lemma entry_ok_union (key : Key) (a b : gset Expr) :
  entry_ok key (VSet a) → entry_ok key (VSet b) → entry_ok key (VSet (a ∪ b)).
Proof. destruct key; simpl; [done..|]. by intros (? & ? & _ & ? & _). Qed.

Lemma entry_ok_key_or_None (key : list Idx) (s : gset Expr) :
  entry_ok (key_or_None key) (VSet s).
Proof. by destruct key. Qed.

(** X7: every entry of a structure that [get_contraction_structure]
    returns is of one of three kinds: the key [None] with a set; a tuple
    key, never the empty tuple, with a set; or a product with a sum factor
    as the key, with a list of as many nested structures as the product has
    sum factors. *)
Theorem structure_entries (expr : Expr) (d : Structure) (key : Key) (v : Value) :
  get_contraction_structure expr = OK d →
  d !! key = Some v →
  entry_ok key v.
Proof.
  revert d key v.
  induction expr as [base indices|n|name|args _|args IH|ty args _]
    using Expr_nested_ind; intros d key v Hget Hv.
  - simpl in Hget. apply bind_OK in Hget as ([once twice] & _ & Hget).
    injection Hget as <-. apply lookup_singleton_Some in Hv as [<- <-].
    apply entry_ok_key_or_None.
  - injection Hget as <-. by apply lookup_singleton_Some in Hv as [<- <-].
  - injection Hget as <-. by apply lookup_singleton_Some in Hv as [<- <-].
  - simpl in Hget.
    apply bind_OK in Hget as ([[inds sym] [dummies|]] & _ & Hget); [|done].
    destruct (filter (λ x, is_Add x) args) as [|f fs] eqn:Hfilter.
    + injection Hget as <-. apply lookup_singleton_Some in Hv as [<- <-].
      apply entry_ok_key_or_None.
    + apply bind_OK in Hget as (ds & Hds & Hget). injection Hget as <-.
      apply lookup_insert_Some in Hv as [[<- <-]|[_ Hv]].
      * exists args, ds. split_and!; [done..| |].
        -- by rewrite Hfilter.
        -- rewrite mapM_filter_spec in Hds. apply mapM_OK in Hds.
           symmetry. by eapply Forall2_length.
      * apply lookup_singleton_Some in Hv as [<- <-].
        apply entry_ok_key_or_None.
  - simpl in Hget. revert key v Hv.
    apply (structure_Add_preserves entry_ok args ∅); [| | |done].
    + apply entry_ok_union.
    + eapply Forall_impl; [exact IH|].
      intros term Hterm d' Hd' key v Hv. by eapply Hterm.
    + intros key v Hv. by rewrite lookup_empty in Hv.
  - simpl in Hget. destruct (negb _); [|done]. injection Hget as <-.
    by apply lookup_singleton_Some in Hv as [<- <-].
Qed.

Lemma structure_entries_witness :
  get_contraction_structure Examples.nested = OK Examples.nested_structure
  ∧ Examples.nested_structure !! KExpr Examples.nested
    = Some (VList [ {[ KNone := VSet {[ Examples.y ["i"]; Examples.z ["i"] ]} ]} ])
  ∧ entry_ok (KExpr Examples.nested)
      (VList [ {[ KNone := VSet {[ Examples.y ["i"]; Examples.z ["i"] ]} ]} ]).
Proof.
  assert (Examples.nested_structure !! KExpr Examples.nested
          = Some (VList [ {[ KNone := VSet {[ Examples.y ["i"]; Examples.z ["i"] ]} ]} ]))
    as Hv by apply lookup_insert_eq.
  split; [exact structure_nested|]. split; [exact Hv|].
  apply (structure_entries _ _ _ _ structure_nested Hv).
Defined.

Lemma merge_items_mono_result (items : list (Key * Value)) (result r : Structure)
    (key : Key) (s : gset Expr) :
  foldlM merge_item result items = OK r →
  result !! key = Some (VSet s) →
  ∃ s', r !! key = Some (VSet s') ∧ s ⊆ s'.
Proof.
  revert result s. induction items as [|[k0 v0] items IH]; intros result s Hrun Hs.
  - simpl in Hrun. simplify_eq. by exists s.
  - simpl in Hrun. apply bind_OK in Hrun as (result' & Hitem & Hrun).
    destruct (decide (k0 = key)) as [->|Hne].
    + rewrite Hs in Hitem. destruct v0 as [b|?]; simplify_eq/=.
      destruct (IH _ (s ∪ b) Hrun) as (s' & Hs' & Hsub);
        [by rewrite lookup_insert_eq|].
      exists s'. split; [done|].
      intros t Ht. apply Hsub, elem_of_union. by left.
    + apply (IH result'); [done|].
      destruct (result !! k0) as [old|].
      * apply bind_OK in Hitem as (new & _ & Hitem). simplify_eq.
        by rewrite lookup_insert_ne.
      * simplify_eq. by rewrite lookup_insert_ne.
Qed.

Lemma merge_items_mono_items (items : list (Key * Value)) (result r : Structure)
    (key : Key) (s : gset Expr) :
  foldlM merge_item result items = OK r →
  (key, VSet s) ∈ items →
  ∃ s', r !! key = Some (VSet s') ∧ s ⊆ s'.
Proof.
  revert result. induction items as [|[k0 v0] items IH]; intros result Hrun Hin.
  - by apply elem_of_nil in Hin.
  - simpl in Hrun. apply bind_OK in Hrun as (result' & Hitem & Hrun).
    apply elem_of_cons in Hin as [[= <- <-]|Hin]; [|by apply (IH result')].
    destruct (result !! key) as [old|] eqn:Hold.
    + destruct old as [a|?]; simplify_eq/=.
      destruct (merge_items_mono_result _ _ _ key (a ∪ s) Hrun) as (s' & Hs' & Hsub);
        [by rewrite lookup_insert_eq|].
      exists s'. split; [done|].
      intros t Ht. apply Hsub, elem_of_union. by right.
    + simplify_eq/=.
      apply (merge_items_mono_result _ _ _ key s Hrun).
      by rewrite lookup_insert_eq.
Qed.

Lemma merge_structure_holds (acc d r : Structure) (terms1 terms2 : list Expr) :
  merge_structure acc d = OK r →
  holds_exactly acc terms1 → holds_exactly d terms2 →
  holds_exactly r (terms1 ++ terms2).
Proof.
  intros Hrun Hacc Hd t. split.
  - intros [Ht|Ht]%elem_of_app.
    + apply Hacc in Ht as (key & s & Hs & Ht).
      destruct (merge_items_mono_result _ _ _ _ _ Hrun Hs) as (s' & Hs' & Hsub).
      exists key, s'. split; [done|]. by apply Hsub.
    + apply Hd in Ht as (key & s & Hs & Ht).
      apply elem_of_map_to_list in Hs.
      destruct (merge_items_mono_items _ _ _ _ _ Hrun Hs) as (s' & Hs' & Hsub).
      exists key, s'. split; [done|]. by apply Hsub.
  - intros (key & s & Hs & Ht).
    apply (merge_structure_preserves
             (λ _ v, ∀ t, t ∈ value_set v → t ∈ terms1 ++ terms2) acc d r)
      with (key := key) (v := VSet s); [| | | |done..].
    + simpl. intros _ a b Ha Hb t' [?|?]%elem_of_union; eauto.
    + done.
    + intros k v Hv t' Ht'. apply elem_of_app; left. apply Hacc.
      destruct v as [s0|?]; [|by apply elem_of_empty in Ht']. eauto.
    + intros k v Hv t' Ht'. apply elem_of_app; right. apply Hd.
      destruct v as [s0|?]; [|by apply elem_of_empty in Ht']. eauto.
Qed.

Lemma holds_exactly_singleton (key : Key) (expr : Expr) :
  holds_exactly {[ key := VSet {[ expr ]} ]} [expr].
Proof.
  intros t. rewrite list_elem_of_singleton. split.
  - intros ->. exists key, {[ expr ]}. rewrite lookup_singleton_eq.
    split; [done|]. by apply elem_of_singleton.
  - intros (k & s & [_ [= <-]]%lookup_singleton_Some & Ht).
    by apply elem_of_singleton in Ht.
Qed.

Lemma holds_exactly_insert_list (d : Structure) (key : Key)
    (ds : list Structure) (terms : list Expr) :
  d !! key = None → holds_exactly d terms →
  holds_exactly (<[ key := VList ds ]> d) terms.
Proof.
  intros Hfresh Hd t. rewrite (Hd t). split.
  - intros (k & s & Hs & Ht). exists k, s. split; [|done].
    rewrite lookup_insert_ne; [done|]. intros <-. congruence.
  - intros (k & s & Hs & Ht). exists k, s. split; [|done].
    by apply lookup_insert_Some in Hs as [[_ [=]]|[_ Hs]].
Qed.

(** X8: the sets of the structure that [get_contraction_structure]
    returns, taken together, hold exactly the terms of the expression: the
    expression itself when it is not a sum, and otherwise its terms, a term
    that is a sum being replaced by its own terms.  No term is lost by the
    merge and no other expression appears in a set. *)
Theorem structure_holds_summands (expr : Expr) (d : Structure) :
  get_contraction_structure expr = OK d →
  holds_exactly d (summands expr).
Proof.
  revert d.
  induction expr as [base indices|n|name|args _|args IH|ty args _]
    using Expr_nested_ind; intros d Hget.
  - simpl in Hget. apply bind_OK in Hget as ([once twice] & _ & Hget).
    injection Hget as <-. apply holds_exactly_singleton.
  - injection Hget as <-. apply holds_exactly_singleton.
  - injection Hget as <-. apply holds_exactly_singleton.
  - simpl in Hget.
    apply bind_OK in Hget as ([[inds sym] [dummies|]] & _ & Hget); [|done].
    destruct (filter (λ x, is_Add x) args) as [|f fs].
    + injection Hget as <-. apply holds_exactly_singleton.
    + apply bind_OK in Hget as (ds & _ & Hget). injection Hget as <-.
      apply holds_exactly_insert_list; [|apply holds_exactly_singleton].
      apply lookup_singleton_ne. by destruct dummies.
  - simpl in Hget. change (summands (Add args)) with (concat (summands <$> args)).
    assert (holds_exactly ∅ []) as Hacc.
    { intros t. split; [by intros ?%elem_of_nil|].
      intros (k & s & Hs & _). by rewrite lookup_empty in Hs. }
    rewrite <- (app_nil_l (concat _)).
    revert Hget Hacc. generalize (@nil Expr) as terms, (∅ : Structure) as acc.
    induction IH as [|term args Hterm _ IHargs]; intros terms acc Hget Hacc;
      simpl in Hget.
    + injection Hget as <-. by rewrite app_nil_r.
    + apply bind_OK in Hget as (acc' & Hstep & Hget).
      apply bind_OK in Hstep as (d' & Hd' & Hmerge).
      rewrite fmap_cons. simpl. rewrite app_assoc.
      apply (IHargs _ acc'); [done|].
      apply (merge_structure_holds acc d'); [done..|]. by apply Hterm.
  - simpl in Hget. destruct (negb _); [|done]. injection Hget as <-.
    apply holds_exactly_singleton.
Qed.

Lemma structure_holds_summands_witness :
  get_contraction_structure Examples.nested = OK Examples.nested_structure
  ∧ holds_exactly Examples.nested_structure [Examples.nested].
Proof.
  split; [exact structure_nested|].
  apply (structure_holds_summands Examples.nested _ structure_nested).
Defined.

(** ** Scalars and the indices of an expression *)


Lemma outer_sequence_scalars (rs : list (gset Idx * SymMap)) :
  Forall (λ r, r.1 = ∅) rs → outer_sequence rs = [].
Proof.
  unfold outer_sequence. induction 1 as [|[s sym] rs Hs _ IH]; [done|].
  simpl in Hs. subst s. rewrite !fmap_cons. simpl. by rewrite elements_empty.
Qed.

Lemma non_scalars_scalars (rs : list (gset Idx * SymMap)) :
  Forall (λ r, r.1 = ∅) rs → non_scalars rs = [].
Proof.
  unfold non_scalars. induction 1 as [|[s sym] rs Hs _ IH]; [done|].
  simpl in Hs. subst s. rewrite fmap_cons, filter_cons. simpl.
  by rewrite decide_False by (by intros []).
Qed.

Lemma mapM_scalars (l : list Expr) :
  Forall (λ e, get_indices e = OK (∅, ∅)) l →
  ∃ rs, mapM get_indices l = OK rs ∧ Forall (λ r, r.1 = ∅) rs
        ∧ length rs = length l.
Proof.
  induction 1 as [|e l He _ (rs & Hrs & Hall & Hlen)].
  - by exists [].
  - exists ((∅, ∅) :: rs). cbn [mapM]. rewrite He, Hrs.
    split; [done|]. split; [by constructor|]. simpl. by rewrite Hlen.
Qed.

Lemma remove_repeated_nil : _remove_repeated [] = OK (∅, []).
Proof. vm_compute. reflexivity. Qed.

(** X9: an expression without [Indexed] leaves is a scalar for
    [get_indices], whatever its shape: when every product has a factor and
    every sum a term, the result is [(set(), {})]. *)
Theorem get_indices_scalar (expr : Expr) :
  has_Indexed expr = false → has_arguments expr = true →
  get_indices expr = OK (∅, ∅).
Proof.
  induction expr as [base indices|n|name|args IH|args IH|ty args _]
    using Expr_nested_ind; intros Hhas Hargs;
    cbn [has_Indexed has_arguments] in Hhas, Hargs; try done.
  - apply andb_true_iff in Hargs as [Hne Hall].
    apply negb_true_iff, bool_decide_eq_false in Hne.
    assert (Forall (λ e, get_indices e = OK (∅, ∅)) args) as Hscalars.
    { rewrite Forall_forall in IH. apply Forall_forall. intros e He.
      apply IH; [done| |].
      - apply not_true_is_false. intros Hx. apply not_false_iff_true in Hx.
        rewrite <- not_true_iff_false in Hhas. apply Hhas.
        apply existsb_exists. exists e. split; [by apply list_elem_of_In|].
        by destruct (has_Indexed e).
      - rewrite forallb_forall in Hall. by apply Hall, list_elem_of_In. }
    apply (Forall_Mul_terms _ args) in Hscalars.
    destruct (mapM_scalars _ Hscalars) as (rs & Hrs & Hall' & Hlen).
    assert (rs ≠ []) as Hrs_ne.
    { intros ->. destruct (Mul_terms args); [done|discriminate]. }
    rewrite (get_indices_Mul_eq _ rs) by done.
    rewrite (outer_sequence_scalars rs Hall'), remove_repeated_nil. simpl.
    by rewrite (mapM_get_indices_symmetry _ _ Hrs).
  - apply andb_true_iff in Hargs as [Hne Hall].
    apply negb_true_iff, bool_decide_eq_false in Hne.
    assert (Forall (λ e, get_indices e = OK (∅, ∅)) args) as Hscalars.
    { rewrite Forall_forall in IH. apply Forall_forall. intros e He.
      apply IH; [done| |].
      - apply not_true_is_false. intros Hx.
        rewrite <- not_true_iff_false in Hhas. apply Hhas.
        apply existsb_exists. exists e. split; [by apply list_elem_of_In|done].
      - rewrite forallb_forall in Hall. by apply Hall, list_elem_of_In. }
    destruct (mapM_scalars _ Hscalars) as (rs & Hrs & Hall' & Hlen).
    assert (rs ≠ []) as Hrs_ne.
    { intros ->. by destruct args. }
    apply (get_indices_Add_scalar _ rs); [done..|].
    by apply non_scalars_scalars.
  - simpl. by rewrite Hhas.
Qed.

Lemma get_indices_scalar_witness :
  let expr := Add [Symbol "a"; Mul [Number 2; Symbol "b"; Other "sin" [Symbol "c"]]] in
  has_Indexed expr = false ∧ has_arguments expr = true
  ∧ get_indices expr = OK (∅, ∅).
Proof.
  split; [reflexivity|]. split; [reflexivity|].
  apply (get_indices_scalar
           (Add [Symbol "a"; Mul [Number 2; Symbol "b"; Other "sin" [Symbol "c"]]]));
    reflexivity.
Defined.

Lemma get_indices_Mul_inv (args : list Expr) (inds : gset Idx) (sym : SymMap) :
  get_indices (Mul args) = OK (inds, sym) →
  ∃ rs twice,
    mapM get_indices (Mul_terms args) = OK rs ∧ rs ≠ []
    ∧ _remove_repeated (outer_sequence rs) = OK (inds, twice) ∧ sym = ∅.
Proof.
  intros Hget.
  destruct (mapM get_indices (Mul_terms args)) as [rs|e] eqn:Hrs.
  2:{ simpl in Hget. unfold _get_indices_Mul in Hget. simpl in Hget.
      by rewrite Hrs in Hget. }
  destruct (decide (rs = [])) as [->|Hne].
  { simpl in Hget. unfold _get_indices_Mul in Hget. simpl in Hget.
    by rewrite Hrs in Hget. }
  rewrite (get_indices_Mul_eq _ rs) in Hget by done.
  apply bind_OK in Hget as ([once twice] & Hrun & Hget). simplify_eq.
  exists rs, twice. split_and!; [done..|].
  by apply (mapM_get_indices_symmetry (Mul_terms args)).
Qed.

Lemma get_indices_Add_inv (args : list Expr) (inds : gset Idx) (sym : SymMap) :
  get_indices (Add args) = OK (inds, sym) →
  ∃ rs,
    mapM get_indices args = OK rs ∧ rs ≠ [] ∧ sym = ∅
    ∧ (∀ s, s ∈ non_scalars rs → s = inds)
    ∧ (non_scalars rs = [] → inds = ∅).
Proof.
  intros Hget.
  assert (sym = ∅) as -> by (by eapply get_indices_symmetry_free).
  destruct (mapM get_indices args) as [rs|e] eqn:Hrs.
  2:{ simpl in Hget. unfold _get_indices_Add in Hget. by rewrite Hrs in Hget. }
  destruct (decide (rs = [])) as [->|Hne].
  { simpl in Hget. unfold _get_indices_Add in Hget. by rewrite Hrs in Hget. }
  exists rs. split_and!; [done..| |].
  - rewrite (get_indices_Add_unfold _ rs) in Hget by done.
    destruct (non_scalars rs) as [|first others]; [by intros s ?%elem_of_nil|].
    destruct (forallb _ others) eqn:Hall; [|done]. simpl in Hget.
    apply bind_OK in Hget as (r & _ & Hget). simplify_eq.
    by apply conformance_check.
  - intros Hns. rewrite (get_indices_Add_scalar _ rs) in Hget by done.
    by simplify_eq.
Qed.

Lemma elem_of_outer_sequence (x : Idx) (rs : list (gset Idx * SymMap)) :
  x ∈ outer_sequence rs ↔ ∃ r, r ∈ rs ∧ x ∈ r.1.
Proof.
  unfold outer_sequence. induction rs as [|[s sym] rs IH].
  - split; [by intros ?%elem_of_nil|]. by intros (r & ?%elem_of_nil & _).
  - rewrite !fmap_cons. simpl. rewrite elem_of_app, IH, elem_of_elements. split.
    + intros [Hx|(r & Hr & Hx)].
      * exists (s, sym). split; [by left|done].
      * exists r. split; [by right|done].
    + intros (r & [->|Hr]%elem_of_cons & Hx); [by left|].
      right. by exists r.
Qed.

Lemma remove_repeated_once (inds : list Idx) (once : gset Idx) (twice : list Idx) :
  _remove_repeated inds = OK (once, twice) →
  ∀ x, x ∈ once ↔ occurrences x inds = 1.
Proof.
  intros (m & _ & Hcounts & _ & -> & _)%remove_repeated_OK_inv x.
  by apply elem_of_once.
Qed.

Lemma all_indices_arg (e : Expr) (args : list Expr) :
  e ∈ args → all_indices e ⊆ ⋃ (all_indices <$> args).
Proof.
  intros He x Hx. apply elem_of_union_list. exists (all_indices e).
  split; [|done]. apply list_elem_of_fmap. by exists e.
Qed.

Lemma mapM_elem_of {A B : Type} (f : A → Res B) (l : list A) (rs : list B) (r : B) :
  mapM f l = OK rs → r ∈ rs → ∃ x, x ∈ l ∧ f x = OK r.
Proof.
  intros Hrs%mapM_OK Hr. induction Hrs as [|x r' l rs Hx _ IH].
  - by apply elem_of_nil in Hr.
  - apply elem_of_cons in Hr as [->|Hr].
    + exists x. split; [by left|done].
    + destruct (IH Hr) as (x' & ? & ?). exists x'. split; [by right|done].
Qed.

Lemma Mul_terms_subseteq (args : list Expr) (e : Expr) :
  e ∈ Mul_terms args → e ∈ args.
Proof.
  destruct args as [|c rest]; simpl; [done|].
  destruct (is_Number c); [by right|done].
Qed.

(** X10: [get_indices] invents no index: every outer index that it returns
    is an index of some [Indexed] leaf of the expression. *)
Theorem get_indices_sound (expr : Expr) (inds : gset Idx) (sym : SymMap) :
  get_indices expr = OK (inds, sym) → inds ⊆ all_indices expr.
Proof.
  revert inds sym.
  induction expr as [base indices|n|name|args IH|args IH|ty args _]
    using Expr_nested_ind; intros inds sym Hget.
  - simpl in Hget. apply bind_OK in Hget as ([once twice] & Hrun & Hget).
    simplify_eq. pose proof (remove_repeated_once _ _ _ Hrun) as Honce.
    intros x Hx%Honce. simpl. apply elem_of_list_to_set, occurrences_pos. lia.
  - by simplify_eq/=.
  - by simplify_eq/=.
  - apply get_indices_Mul_inv in Hget as (rs & twice & Hrs & _ & Hrun & _).
    pose proof (remove_repeated_once _ _ _ Hrun) as Honce.
    intros x Hx%Honce.
    assert (x ∈ outer_sequence rs) as ([s sym'] & Hr & Hxs)%elem_of_outer_sequence
      by (apply occurrences_pos; lia).
    destruct (mapM_elem_of _ _ _ _ Hrs Hr) as (e & He%Mul_terms_subseteq & Hge).
    rewrite Forall_forall in IH.
    apply (all_indices_arg e args He). by apply (IH e He s sym').
  - apply get_indices_Add_inv in Hget as (rs & Hrs & _ & _ & Hall & Hnil).
    intros x Hx.
    destruct (non_scalars rs) as [|first others] eqn:Hns.
    { rewrite Hnil in Hx by done. by apply elem_of_empty in Hx. }
    assert (first ∈ non_scalars rs) as Hfirst by (rewrite Hns; by left).
    rewrite <- Hns in Hall. rewrite <- (Hall first Hfirst) in Hx.
    apply non_scalars_elem in Hfirst as [_ ([s sym'] & -> & Hr)%list_elem_of_fmap].
    destruct (mapM_elem_of _ _ _ _ Hrs Hr) as (e & He & Hge).
    rewrite Forall_forall in IH.
    apply (all_indices_arg e args He). by apply (IH e He s sym').
  - simpl in Hget. destruct (negb _); simplify_eq.
    by intros x ?%elem_of_empty.
Qed.

Lemma get_indices_sound_witness :
  get_indices Examples.contraction = OK ({[ "i"; "j" ]}, ∅)
  ∧ ({[ "i"; "j" ]} : gset Idx) ⊆ all_indices Examples.contraction.
Proof.
  assert (get_indices Examples.contraction = OK ({[ "i"; "j" ]}, ∅)) as Hget
    by (vm_compute; reflexivity).
  split; [exact Hget|].
  apply (get_indices_sound _ _ _ Hget).
Defined.

(** ** Reordering terms and factors *)

Lemma mapM_Permutation {A B : Type} (f : A → Res B) (l l' : list A) (rs : list B) :
  l ≡ₚ l' → mapM f l = OK rs →
  ∃ rs', mapM f l' = OK rs' ∧ rs ≡ₚ rs'.
Proof.
  intros Hperm. revert rs.
  induction Hperm as [|x l l' _ IH|x y l|l l' l'' _ IH1 _ IH2]; intros rs Hrs.
  - exists rs. by simplify_eq/=.
  - cbn [mapM] in Hrs.
    apply bind_OK in Hrs as (r & Hr & (rs0 & Hrs0 & [= <-])%bind_OK).
    destruct (IH _ Hrs0) as (rs0' & Hrs0' & Hp).
    exists (r :: rs0'). cbn [mapM]. rewrite Hr, Hrs0'. split; [done|].
    by constructor.
  - cbn [mapM] in Hrs.
    apply bind_OK in Hrs as (ry & Hry & (rs1 & Hrs1 & [= <-])%bind_OK).
    apply bind_OK in Hrs1 as (rx & Hrx & (rs0 & Hrs0 & [= <-])%bind_OK).
    exists (rx :: ry :: rs0). cbn [mapM]. rewrite Hrx, Hry, Hrs0.
    split; [done|]. apply perm_swap.
  - destruct (IH1 _ Hrs) as (rs' & Hrs' & Hp1).
    destruct (IH2 _ Hrs') as (rs'' & Hrs'' & Hp2).
    exists rs''. split; [done|]. by etrans.
Qed.

Lemma non_scalars_Permutation (rs rs' : list (gset Idx * SymMap)) :
  rs ≡ₚ rs' → non_scalars rs ≡ₚ non_scalars rs'.
Proof. intros Hperm. unfold non_scalars. by rewrite Hperm. Qed.

(** X11: a sum is analysed as a set of terms: when [get_indices] returns on
    a sum, it returns the same result on the sum of the same terms in any
    other order. *)
Theorem get_indices_Add_Permutation (args args' : list Expr)
    (inds : gset Idx) (sym : SymMap) :
  args ≡ₚ args' →
  get_indices (Add args) = OK (inds, sym) →
  get_indices (Add args') = OK (inds, sym).
Proof.
  intros Hperm (rs & Hrs & Hne & -> & Hall & Hnil)%get_indices_Add_inv.
  destruct (mapM_Permutation _ _ _ _ Hperm Hrs) as (rs' & Hrs' & Hp).
  assert (rs' ≠ []) as Hne'.
  { intros ->. by apply Permutation_nil_r in Hp. }
  pose proof (non_scalars_Permutation _ _ Hp) as Hns.
  destruct (non_scalars rs') as [|first others] eqn:Hns'.
  - apply Permutation_nil_r in Hns. rewrite (Hnil Hns).
    by apply (get_indices_Add_scalar _ rs').
  - assert (∀ s, s ∈ first :: others → s = inds) as Hall'.
    { intros s Hs. apply Hall. by rewrite Hns. }
    assert (first = inds) as -> by (apply Hall'; by left).
    by apply (get_indices_Add_conforming _ rs' inds others).
Qed.

Lemma get_indices_Add_Permutation_witness :
  let args := [Examples.x ["i"]; Mul [Examples.A ["i"; "j"]; Examples.y ["j"]]] in
  let args' := [Mul [Examples.A ["i"; "j"]; Examples.y ["j"]]; Examples.x ["i"]] in
  args ≡ₚ args'
  ∧ get_indices (Add args) = OK ({[ "i" ]}, ∅)
  ∧ get_indices (Add args') = OK ({[ "i" ]}, ∅).
Proof.
  assert (get_indices
            (Add [Examples.x ["i"]; Mul [Examples.A ["i"; "j"]; Examples.y ["j"]]])
          = OK ({[ "i" ]}, ∅)) as Hget by (vm_compute; reflexivity).
  split; [apply perm_swap|]. split; [exact Hget|].
  apply (get_indices_Add_Permutation _ _ _ _ (perm_swap _ _ _) Hget).
Defined.

Lemma outer_count_Permutation (x : Idx) (rs rs' : list (gset Idx * SymMap)) :
  rs ≡ₚ rs' → outer_count x rs = outer_count x rs'.
Proof. intros Hperm. unfold outer_count. by rewrite Hperm. Qed.

(** The tuple of dummies follows the order of the factors. *)
Example get_indices_Mul_order :
  _get_indices_Mul get_indices
    [Examples.x ["i"]; Examples.y ["j"]; Examples.A ["i"; "j"]] true
  = OK (∅, ∅, Some ["i"; "j"])
  ∧ _get_indices_Mul get_indices
      [Examples.y ["j"]; Examples.x ["i"]; Examples.A ["i"; "j"]] true
    = OK (∅, ∅, Some ["j"; "i"]).
Proof. split; vm_compute; reflexivity. Qed.

(** X12: the order of the factors matters to the product rule only for the
    order of the dummies: when the rule returns on a product, with or
    without the dummies, it returns on the product of the same factors in
    any other order, with the same outer indices, the same symmetry map
    and, where it returns them, a tuple of the same dummies. *)
Theorem get_indices_Mul_Permutation (args args' : list Expr) (return_dummies : bool)
    (inds : gset Idx) (sym : SymMap) (dummies : option (list Idx)) :
  (as_coeff_terms args).2 ≡ₚ (as_coeff_terms args').2 →
  _get_indices_Mul get_indices args return_dummies = OK (inds, sym, dummies) →
  ∃ dummies',
    _get_indices_Mul get_indices args' return_dummies = OK (inds, sym, dummies')
    ∧ option_Forall2 (≡ₚ) dummies dummies'.
Proof.
  simpl. intros Hperm Hmul.
  destruct (mapM get_indices (Mul_terms args)) as [rs|e] eqn:Hrs.
  2:{ unfold _get_indices_Mul in Hmul. simpl in Hmul. by rewrite Hrs in Hmul. }
  destruct (decide (rs = [])) as [->|Hne].
  { unfold _get_indices_Mul in Hmul. simpl in Hmul. by rewrite Hrs in Hmul. }
  rewrite (get_indices_Mul_unfold _ _ rs) in Hmul by done.
  apply bind_OK in Hmul as ([once twice] & Hrun & Hmul).
  destruct (mapM_Permutation _ _ _ _ Hperm Hrs) as (rs' & Hrs' & Hp).
  assert (rs' ≠ []) as Hne'.
  { intros ->. by apply Permutation_nil_r in Hp. }
  rewrite (get_indices_Mul_unfold _ _ rs') by done.
  destruct (remove_repeated_same_counts (outer_sequence rs) (outer_sequence rs')
              once twice) as (twice' & Hrun' & Htwice); [|done|].
  { intros x. rewrite !occurrences_outer_sequence.
    by apply outer_count_Permutation. }
  rewrite Hrun'. simpl. rewrite (mapM_get_indices_symmetry _ _ Hrs').
  rewrite (mapM_get_indices_symmetry _ _ Hrs) in Hmul.
  destruct return_dummies; simplify_eq; eexists; (split; [done|]);
    by constructor.
Qed.

Lemma get_indices_Mul_Permutation_witness :
  let args := [Examples.x ["i"]; Examples.y ["j"]; Examples.A ["i"; "j"]] in
  let args' := [Examples.y ["j"]; Examples.x ["i"]; Examples.A ["i"; "j"]] in
  (as_coeff_terms args).2 ≡ₚ (as_coeff_terms args').2
  ∧ _get_indices_Mul get_indices args true = OK (∅, ∅, Some ["i"; "j"])
  ∧ ∃ dummies',
      _get_indices_Mul get_indices args' true = OK (∅, ∅, dummies')
      ∧ option_Forall2 (≡ₚ) (Some ["i"; "j"]) dummies'.
Proof.
  assert (_get_indices_Mul get_indices
            [Examples.x ["i"]; Examples.y ["j"]; Examples.A ["i"; "j"]] true
          = OK (∅, ∅, Some ["i"; "j"])) as Hmul by (vm_compute; reflexivity).
  split; [apply perm_swap|]. split; [exact Hmul|].
  apply (get_indices_Mul_Permutation
           [Examples.x ["i"]; Examples.y ["j"]; Examples.A ["i"; "j"]]
           [Examples.y ["j"]; Examples.x ["i"]; Examples.A ["i"; "j"]] true _ _ _
           (perm_swap _ _ _) Hmul).
Defined.

(** ** The outcome of the merge of a sum *)

Lemma merge_items_TypeError (items : list (Key * Value)) (result : Structure)
    (err : PyError) :
  foldlM merge_item result items = Raise err → err = TypeError.
Proof.
  revert result. induction items as [|[k0 v0] items IH]; intros result; [done|].
  simpl. destruct (result !! k0) as [old|].
  - destruct old as [a|?], v0 as [b|?]; simpl; try by intros [= <-].
    apply IH.
  - simpl. apply IH.
Qed.

Lemma merge_all_TypeError (ds : list Structure) (acc : Structure) (err : PyError) :
  foldlM merge_structure acc ds = Raise err → err = TypeError.
Proof.
  revert acc. induction ds as [|d ds IH]; intros acc; [done|].
  simpl. destruct (merge_structure acc d) as [acc'|e] eqn:Hmerge; simpl.
  - apply IH.
  - intros [= <-]. by apply merge_items_TypeError in Hmerge.
Qed.

Lemma merge_items_OK_compatible (items : list (Key * Value)) (result r : Structure)
    (key : Key) (old new : Value) :
  NoDup items.*1 →
  foldlM merge_item result items = OK r →
  result !! key = Some old → (key, new) ∈ items →
  is_VSet old ∧ is_VSet new.
Proof.
  revert result. induction items as [|[k0 v0] items IH];
    intros result Hnd Hrun Hold Hin; [by apply elem_of_nil in Hin|].
  rewrite fmap_cons in Hnd. apply NoDup_cons in Hnd as [Hk0 Hnd].
  simpl in Hrun. apply bind_OK in Hrun as (result' & Hitem & Hrun).
  apply elem_of_cons in Hin as [[= <- <-]|Hin].
  - rewrite Hold in Hitem. by destruct old as [a|?], new as [b|?].
  - assert (k0 ≠ key) as Hne.
    { intros ->. apply Hk0. apply list_elem_of_fmap. by exists (key, new). }
    apply (IH result'); [done..| |done].
    destruct (result !! k0) as [old'|].
    + apply bind_OK in Hitem as (v & _ & Hitem). simplify_eq.
      by rewrite lookup_insert_ne.
    + simplify_eq. by rewrite lookup_insert_ne.
Qed.

Lemma merge_structure_OK_compatible (result d r : Structure) :
  merge_structure result d = OK r → compatible result d.
Proof.
  intros Hrun key old new Hold Hnew%elem_of_map_to_list.
  by apply (merge_items_OK_compatible (map_to_list d) result r key);
    [apply NoDup_fst_map_to_list|..].
Qed.

Lemma merge_all_OK_mergeable (ds : list Structure) (r : Structure) :
  foldlM merge_structure ∅ ds = OK r → mergeable ds.
Proof.
  revert r. induction ds as [|d ds IH] using rev_ind; intros r Hrun.
  - intros key. left. simpl. lia.
  - rewrite foldlM_app in Hrun. apply bind_OK in Hrun as (r0 & Hr0 & Hrun).
    simpl in Hrun. apply bind_OK in Hrun as (r1 & Hmerge & _).
    pose proof (IH _ Hr0) as Hm.
    destruct (merge_all_ok ds Hm) as (r0' & Hr0' & Hspec).
    assert (r0' = r0) as -> by congruence.
    apply merge_structure_OK_compatible in Hmerge.
    intros key. rewrite values_at_snoc.
    destruct (d !! key) as [new|] eqn:Hnew; simpl; [|rewrite app_nil_r; apply Hm].
    destruct (values_at key ds) as [|v vs] eqn:Hvs; [left; simpl; lia|].
    right. assert (∃ old, r0 !! key = Some old) as [old Hold].
    { rewrite Hspec, Hvs. destruct vs; simpl; eauto. }
    destruct (Hmerge key old new Hold Hnew) as [Ho Hn].
    apply Forall_app. split; [|by constructor].
    destruct (Hm key) as [Hlen|Hall]; rewrite Hvs in *; [|done].
    destruct vs; [|simpl in Hlen; lia].
    rewrite Hspec, Hvs in Hold. simpl in Hold. simplify_eq. by constructor.
Qed.

(** X13: on a sum whose terms succeed, [get_contraction_structure] returns
    exactly when no key that holds a list of nested structures occurs in
    the structures of two terms; otherwise it raises [TypeError], and it
    raises nothing else. *)
Theorem structure_Add_outcome (args : list Expr) (ds : list Structure) :
  mapM get_contraction_structure args = OK ds →
  ((∃ result, get_contraction_structure (Add args) = OK result) ↔ mergeable ds)
  ∧ (get_contraction_structure (Add args) = Raise TypeError ↔ ¬ mergeable ds)
  ∧ (∀ err, get_contraction_structure (Add args) = Raise err → err = TypeError).
Proof.
  intros Hds. rewrite (structure_Add_eq _ ds) by done.
  assert ((∃ result, foldlM merge_structure ∅ ds = OK result) ↔ mergeable ds)
    as Hiff.
  { split.
    - intros [result Hrun]. by eapply merge_all_OK_mergeable.
    - intros (result & Hrun & _)%merge_all_ok. eauto. }
  split_and!; [done| |apply merge_all_TypeError].
  split.
  - intros Hrun Hm%Hiff. destruct Hm as [result Hres]. congruence.
  - intros Hm. destruct (foldlM merge_structure ∅ ds) as [result|err] eqn:Hrun.
    + destruct Hm. apply Hiff. eauto.
    + by rewrite (merge_all_TypeError _ _ _ Hrun).
Qed.

Lemma structure_Add_outcome_witness :
  mapM get_contraction_structure [Examples.nested; Examples.nested]
  = OK [Examples.nested_structure; Examples.nested_structure]
  ∧ ∀ err, get_contraction_structure (Add [Examples.nested; Examples.nested])
           = Raise err → err = TypeError.
Proof.
  assert (mapM get_contraction_structure [Examples.nested; Examples.nested]
          = OK [Examples.nested_structure; Examples.nested_structure]) as Hterms.
  { cbn [mapM]. by rewrite structure_nested. }
  split; [exact Hterms|].
  apply (structure_Add_outcome _ _ Hterms).
Defined.

Lemma structure_Add_terms (args : list Expr) (acc r : Structure) :
  foldlM (λ result term,
            d ← get_contraction_structure term;
            merge_structure result d) acc args = OK r →
  ∃ ds, mapM get_contraction_structure args = OK ds.
Proof.
  revert acc. induction args as [|term args IH]; intros acc Hrun.
  - by exists [].
  - simpl in Hrun. apply bind_OK in Hrun as (acc' & Hstep & Hrun).
    apply bind_OK in Hstep as (d & Hd & _).
    destruct (IH _ Hrun) as [ds Hds]. exists (d :: ds).
    cbn [mapM]. by rewrite Hd, Hds.
Qed.

Lemma values_at_Permutation (key : Key) (ds ds' : list Structure) :
  ds ≡ₚ ds' → values_at key ds ≡ₚ values_at key ds'.
Proof. intros Hperm. unfold values_at. by rewrite Hperm. Qed.

Lemma keywise_merge_Permutation (vs vs' : list Value) :
  vs ≡ₚ vs' → keywise_merge vs = keywise_merge vs'.
Proof.
  intros Hperm. pose proof (Permutation_length Hperm) as Hlen.
  destruct vs as [|v1 [|v2 vs]], vs' as [|v1' [|v2' vs']];
    try discriminate Hlen.
  - done.
  - by apply Permutation_singleton_l in Hperm as [= ->].
  - unfold keywise_merge. do 2 f_equal. apply set_eq. intros t. rewrite !elem_of_union_list.
    split; intros (X & HX & Ht); exists X; (split; [|done]).
    + by rewrite <- Hperm.
    + by rewrite Hperm.
Qed.

(** X14: a sum is merged as a set of terms: when
    [get_contraction_structure] returns on a sum, it returns the same
    structure on the sum of the same terms in any other order. *)
Theorem structure_Add_Permutation (args args' : list Expr) (result : Structure) :
  args ≡ₚ args' →
  get_contraction_structure (Add args) = OK result →
  get_contraction_structure (Add args') = OK result.
Proof.
  intros Hperm Hget.
  destruct (structure_Add_terms args ∅ result Hget) as [ds Hds].
  rewrite (structure_Add_eq _ ds) in Hget by done.
  pose proof (merge_all_OK_mergeable _ _ Hget) as Hm.
  destruct (merge_all_ok ds Hm) as (r0 & Hr0 & Hspec).
  assert (r0 = result) as -> by congruence.
  destruct (mapM_Permutation _ _ _ _ Hperm Hds) as (ds' & Hds' & Hp).
  assert (mergeable ds') as Hm'.
  { intros key. pose proof (values_at_Permutation key _ _ Hp) as Hv.
    destruct (Hm key) as [Hlen|Hall].
    - left. by rewrite <- (Permutation_length Hv).
    - right. by rewrite <- Hv. }
  destruct (merge_all_ok ds' Hm') as (r' & Hr' & Hspec').
  rewrite (structure_Add_eq _ ds') by done. rewrite Hr'. f_equal.
  apply map_eq. intros key. rewrite Hspec, Hspec'.
  symmetry. by apply keywise_merge_Permutation, values_at_Permutation.
Qed.

Lemma structure_Add_Permutation_witness :
  [Examples.inner_product; Examples.A ["j"; "j"]]
    ≡ₚ [Examples.A ["j"; "j"]; Examples.inner_product]
  ∧ get_contraction_structure (Add [Examples.inner_product; Examples.A ["j"; "j"]])
    = OK (<[ KTuple ["j"] := VSet {[ Examples.A ["j"; "j"] ]} ]>
            {[ KTuple ["i"] := VSet {[ Examples.inner_product ]} ]})
  ∧ get_contraction_structure (Add [Examples.A ["j"; "j"]; Examples.inner_product])
    = OK (<[ KTuple ["j"] := VSet {[ Examples.A ["j"; "j"] ]} ]>
            {[ KTuple ["i"] := VSet {[ Examples.inner_product ]} ]}).
Proof.
  assert (get_contraction_structure Examples.inner_plus_trace
          = OK (<[ KTuple ["j"] := VSet {[ Examples.A ["j"; "j"] ]} ]>
                  {[ KTuple ["i"] := VSet {[ Examples.inner_product ]} ]})) as Hget.
  { unfold Examples.inner_plus_trace.
    rewrite (structure_Add_eq _
      [ {[ KTuple ["i"] := VSet {[ Examples.inner_product ]} ]};
        {[ KTuple ["j"] := VSet {[ Examples.A ["j"; "j"] ]} ]} ]).
    2:{ cbn [mapM]. by rewrite structure_inner_product, structure_trace. }
    cbn [foldlM]. rewrite merge_structure_empty. cbn [mbind Res_bind].
    rewrite merge_structure_singleton. unfold merge_item.
    by rewrite lookup_singleton_ne. }
  split; [apply perm_swap|]. split; [exact Hget|].
  apply (structure_Add_Permutation
           [Examples.inner_product; Examples.A ["j"; "j"]]
           [Examples.A ["j"; "j"]; Examples.inner_product] _
           (perm_swap _ _ _) Hget).
Defined.

(** ** Scalars in a sum *)

(** X15: scalars are broadcast: a term without outer indices added to a
    sum on which [get_indices] returns leaves the result as it is. *)
Theorem get_indices_Add_broadcast (term : Expr) (args : list Expr)
    (term_sym : SymMap) (inds : gset Idx) (sym : SymMap) :
  get_indices term = OK (∅, term_sym) →
  get_indices (Add args) = OK (inds, sym) →
  get_indices (Add (term :: args)) = OK (inds, sym).
Proof.
  intros Hterm (rs & Hrs & Hne & -> & Hall & Hnil)%get_indices_Add_inv.
  assert (mapM get_indices (term :: args) = OK ((∅, term_sym) :: rs)) as Hrs'.
  { cbn [mapM]. by rewrite Hterm, Hrs. }
  assert (non_scalars ((∅, term_sym) :: rs) = non_scalars rs) as Hns.
  { unfold non_scalars. rewrite fmap_cons, filter_cons. simpl.
    by rewrite decide_False by (by intros []). }
  destruct (non_scalars rs) as [|first others] eqn:Hns'.
  - rewrite (Hnil eq_refl).
    by apply (get_indices_Add_scalar _ ((∅, term_sym) :: rs)).
  - assert (first = inds) as -> by (apply Hall; by left).
    by apply (get_indices_Add_conforming _ ((∅, term_sym) :: rs) inds others).
Qed.

Lemma get_indices_Add_broadcast_witness :
  get_indices (Symbol "a") = OK (∅, ∅)
  ∧ get_indices (Add [Examples.x ["i"]; Examples.y ["i"]]) = OK ({[ "i" ]}, ∅)
  ∧ get_indices (Add [Symbol "a"; Examples.x ["i"]; Examples.y ["i"]])
    = OK ({[ "i" ]}, ∅).
Proof.
  assert (get_indices (Add [Examples.x ["i"]; Examples.y ["i"]]) = OK ({[ "i" ]}, ∅))
    as Hget by (vm_compute; reflexivity).
  split; [reflexivity|]. split; [exact Hget|].
  apply (get_indices_Add_broadcast (Symbol "a") _ ∅ _ _ eq_refl Hget).
Defined.

(** ** The exceptions of [get_indices] *)

Lemma mapM_Raise {A B : Type} (f : A → Res B) (l : list A) (err : PyError) :
  mapM f l = Raise err → ∃ x, x ∈ l ∧ f x = Raise err.
Proof.
  induction l as [|x l IH]; [done|]. cbn [mapM].
  destruct (f x) as [r|e] eqn:Hx; simpl.
  - destruct (mapM f l) as [rs|e]; simpl; [done|]. intros [= ->].
    destruct (IH eq_refl) as (x' & ? & ?). exists x'. split; [by right|done].
  - intros [= ->]. exists x. split; [by left|done].
Qed.

Lemma remove_repeated_Raise (inds : list Idx) (err : PyError) :
  _remove_repeated inds = Raise err → ∃ i, err = AssertionError i.
Proof.
  unfold _remove_repeated.
  destruct (count_loop_spec inds) as [(m & -> & _)|(i & -> & _)]; [done|].
  intros [= <-]. eauto.
Qed.


(** X16: on an expression in which every product has a factor and every
    sum a term, [get_indices] raises nothing but the three documented
    failures: the assertion on a third occurrence of an index,
    [IndexConformanceException] and [NotImplementedError]. *)
Theorem get_indices_exceptions (expr : Expr) (err : PyError) :
  has_arguments expr = true →
  get_indices expr = Raise err →
  documented err.
Proof.
  revert err.
  induction expr as [base indices|n|name|args IH|args IH|ty args _]
    using Expr_nested_ind; intros err Hargs Hget;
    cbn [has_arguments] in Hargs.
  - simpl in Hget.
    destruct (_remove_repeated indices) as [[once twice]|e] eqn:Hrun; [done|].
    simpl in Hget. injection Hget as <-.
    by apply remove_repeated_Raise in Hrun as [i ->].
  - done.
  - done.
  - apply andb_true_iff in Hargs as [Hne Hall].
    apply negb_true_iff, bool_decide_eq_false in Hne.
    rewrite forallb_forall in Hall. rewrite Forall_forall in IH.
    destruct (mapM get_indices (Mul_terms args)) as [rs|e] eqn:Hrs.
    + assert (rs ≠ []) as Hrs_ne.
      { intros ->. apply mapM_OK in Hrs. by inversion Hrs. }
      rewrite (get_indices_Mul_eq _ rs) in Hget by done.
      destruct (_remove_repeated (outer_sequence rs)) as [[once twice]|e] eqn:Hrun;
        [done|].
      simpl in Hget. injection Hget as <-.
      by apply remove_repeated_Raise in Hrun as [i ->].
    + simpl in Hget. unfold _get_indices_Mul in Hget. simpl in Hget.
      rewrite Hrs in Hget. simpl in Hget. injection Hget as <-.
      apply mapM_Raise in Hrs as (e' & He'%Mul_terms_subseteq & Hraise).
      apply (IH e' He'); [|done]. by apply Hall, list_elem_of_In.
  - apply andb_true_iff in Hargs as [Hne Hall].
    apply negb_true_iff, bool_decide_eq_false in Hne.
    rewrite forallb_forall in Hall. rewrite Forall_forall in IH.
    destruct (mapM get_indices args) as [rs|e] eqn:Hrs.
    + assert (rs ≠ []) as Hrs_ne.
      { intros ->. apply mapM_OK in Hrs. by inversion Hrs. }
      rewrite (get_indices_Add_unfold _ rs) in Hget by done.
      destruct (non_scalars rs) as [|first others]; [done|].
      destruct (negb _); [by injection Hget as <-|].
      destruct (reduce_cons differs_or_second (PyDict <$> rs.*2)) as [r Hr].
      { by destruct rs. }
      by rewrite Hr in Hget.
    + simpl in Hget. unfold _get_indices_Add in Hget.
      rewrite Hrs in Hget. simpl in Hget. injection Hget as <-.
      apply mapM_Raise in Hrs as (e' & He' & Hraise).
      apply (IH e' He'); [|done]. by apply Hall, list_elem_of_In.
  - simpl in Hget. destruct (negb _); [done|]. by injection Hget as <-.
Qed.

Lemma get_indices_exceptions_witness :
  has_arguments Examples.triple = true
  ∧ get_indices Examples.triple = Raise (AssertionError "i")
  ∧ documented (AssertionError "i").
Proof.
  assert (get_indices Examples.triple = Raise (AssertionError "i")) as Hget
    by (vm_compute; reflexivity).
  split; [reflexivity|]. split; [exact Hget|].
  apply (get_indices_exceptions Examples.triple _ eq_refl Hget).
Defined.

(** ** The energy levels of the oscillator *)

Lemma Qc_double_nonneg (n : Qc) : (0 ≤ n → 0 ≤ 2 * n)%Qc.
Proof.
  intros Hn. rewrite <- (Qcmult_0_l n). by apply Qcmult_le_compat_r.
Qed.

(** X17: the energy depends on [n] and [l] through [2*n + l] only: two
    levels with the same [2*n + l] have the same energy; and one more node
    raises the energy by [2*hw]. *)
Theorem E_nl_levels (n l n' l' hw : Qc) :
  (2 * n + l = 2 * n' + l')%Qc →
  Sho.E_nl n l hw = Sho.E_nl n' l' hw
  ∧ (Sho.E_nl (n + 1) l hw - Sho.E_nl n l hw = 2 * hw)%Qc.
Proof.
  intros Heq. unfold Sho.E_nl. split; [by rewrite Heq|ring].
Qed.

Lemma E_nl_levels_witness :
  (2 * 1 + 0 = 2 * 0 + 2)%Qc
  ∧ Sho.E_nl 1 0 1 = Sho.E_nl 0 2 1.
Proof.
  assert (2 * 1 + 0 = 2 * 0 + 2)%Qc as Heq by ring.
  split; [exact Heq|].
  apply (E_nl_levels 1 0 0 2 1 Heq).
Defined.

(** X18: for nonnegative [n], [l] and [hw] the energy is at least the one
    of the level [n = l = 0], which is [3/2*hw]. *)
Theorem E_nl_zero_point (n l hw : Qc) :
  (0 ≤ n → 0 ≤ l → 0 ≤ hw →
   Sho.E_nl 0 0 hw ≤ Sho.E_nl n l hw
   ∧ Sho.E_nl 0 0 hw = Sho.three_halves * hw)%Qc.
Proof.
  intros Hn Hl Hhw. unfold Sho.E_nl. split; [|ring].
  apply Qcmult_le_compat_r; [|done].
  apply Qcplus_le_compat; [|apply Qcle_refl].
  apply Qcplus_le_compat; [|done].
  rewrite Qcmult_0_r. by apply Qc_double_nonneg.
Qed.

Lemma E_nl_zero_point_witness :
  (0 ≤ 1 ∧ Sho.E_nl 0 0 1 ≤ Sho.E_nl 1 1 1)%Qc.
Proof.
  assert (0 ≤ 1)%Qc as H1 by (by vm_compute).
  split; [exact H1|].
  apply (E_nl_zero_point 1 1 1 H1 H1 H1).
Defined.
